(** * Schema consolidation scripts: dependency resolver and group assignor

    A shallow embedding of [database/scripts/resolve_dependencies.py] and
    [database/scripts/split_by_schema.py], with the properties of the
    dependency ordering, the size-bounded group assignment and the seed
    separation.

    Conventions of the embedding.
    - A Python [str] is a [string].  The texts are SQL sources and are
      read as ASCII: [upper] acts on the letters a to z, and white space
      is the white space of ASCII.
    - A Python [dict] with string keys is a [gmap string _], a [set] of
      strings is a [gset string].  The order in which Python iterates over
      a set is not fixed by the language; it is a parameter ([HashOrder]).
    - A failing Python operation raises; the raised exception is a value
      of [exn].  What the splitter has written to disk survives an
      exception, so its functions live in a state and exception monad
      over the files.
    - [visit] is a recursive Python function: every nested call takes a
      frame of the interpreter, and the interpreter raises
      [RecursionError] when a call would exceed its recursion limit.  The
      scripts never change that limit.  The number of nested calls of
      [visit] that the interpreter allows is an argument of the
      traversal.
    - The [while] loop of the splitter is bounded by a fuel argument;
      running out of fuel is the outcome [OutOfFuel], which is shown
      never to happen with the fuel that its caller supplies.
    - The directory of per-table files is a [gmap] from table name to
      text.  Errors of the file system, the JSON encoding of the order
      file and the regular expression of [parse_fks] are not modelled:
      the order is passed as a list, [parse_fks] is a parameter. *)

From Stdlib Require Import Ascii.
From stdpp Require Import base gmap sets list strings sorting pretty.

(** ** Exceptions and results *)

Inductive exn : Type :=
  | SystemExit (msg : string)
  | KeyError (key : string)
  | ValueError
  | IndexError
  | RecursionError
  | OutOfFuel.

Inductive result (A : Type) : Type :=
  | Ok (a : A)
  | Raise (e : exn).
Arguments Ok {A} a.
Arguments Raise {A} e.

Definition rbind {A B} (m : result A) (k : A → result B) : result B :=
  match m with
  | Ok a => k a
  | Raise e => Raise e
  end.

Notation "x ←ᵣ m ; k" := (rbind m (λ x, k))
  (at level 20, m at level 100, k at level 200, right associativity,
   format "x  ←ᵣ  m ;  '/' k").

(** ** Python built-ins used by the scripts *)

(** [l.index(x)]: position of the first occurrence; [None] stands for the
    [ValueError] that Python raises when [x] is not in [l]. *)
Fixpoint index (x : string) (l : list string) : option nat :=
  match l with
  | [] => None
  | y :: l' => if decide (x = y) then Some 0 else S <$> index x l'
  end.

(** [l.count(x)]. *)
Fixpoint count (x : string) (l : list string) : nat :=
  match l with
  | [] => 0
  | y :: l' => (if decide (x = y) then 1 else 0) + count x l'
  end.

(** [sorted(xs)] on strings: ascending in the lexicographic order of the
    character codes. *)
Definition sorted (xs : list string) : list string :=
  merge_sort String.le xs.

(** The newline character and the blank-line separator ["\n\n"]. *)
Definition nl : string := String "010"%char "".
Definition blank_line : string := nl +:+ nl.

(** [sep.join(parts)] *)
Definition join (sep : string) (parts : list string) : string :=
  String.concat sep parts.

(** [str.isspace] on one character. *)
Definition isspace (c : ascii) : bool :=
  match c with
  | "009" | "010" | "011" | "012" | "013" | "028" | "029" | "030" | "031"
  | " " => true
  | _ => false
  end%char.

(** [s.lstrip()], [s.rstrip()] and [s.strip()]. *)
Fixpoint lstrip (s : string) : string :=
  match s with
  | String c s' => if isspace c then lstrip s' else s
  | EmptyString => EmptyString
  end.

Fixpoint rstrip (s : string) : string :=
  match s with
  | String c s' =>
      match rstrip s' with
      | EmptyString => if isspace c then EmptyString else String c EmptyString
      | r => String c r
      end
  | EmptyString => EmptyString
  end.

Definition strip (s : string) : string := rstrip (lstrip s).

(** [s.upper()] *)
Definition upper_char (c : ascii) : ascii :=
  let n := nat_of_ascii c in
  if (97 <=? n) && (n <=? 122) then ascii_of_nat (n - 32) else c.

Fixpoint upper (s : string) : string :=
  match s with
  | String c s' => String (upper_char c) (upper s')
  | EmptyString => EmptyString
  end.

(** [s.startswith(p)] *)
Definition startswith (s p : string) : bool := String.prefix p s.

(** [p in s] on strings. *)
Fixpoint contains (p s : string) : bool :=
  String.prefix p s ||
  match s with
  | String _ s' => contains p s'
  | EmptyString => false
  end.

(** [s.count("\n")] *)
Fixpoint count_newlines (s : string) : nat :=
  match s with
  | String c s' => (if decide (c = "010"%char) then 1 else 0) + count_newlines s'
  | EmptyString => 0
  end.

(** The truth value of a string: it is not empty. *)
Definition nonempty (s : string) : bool :=
  match s with EmptyString => false | _ => true end.

(** Decimal rendering of a number in an f-string, and [{n:02d}]. *)
Definition str_of_nat (n : nat) : string := pretty n.
Definition str_of_nat_02 (n : nat) : string :=
  if n <? 10 then "0" +:+ pretty n else pretty n.

(** The iteration order of a Python set (and of the keys of a dict filled
    in directory-listing order) is some enumeration of its elements. *)
Class HashOrder := {
  set_iter : gset string → list string;
  set_iter_perm : ∀ X, set_iter X ≡ₚ elements X
}.

(** ** resolve_dependencies.py *)

Module Resolver.

Record state := mk_state {
  resolved : list string;
  temp : gset string;
  visited : gset string;
  cycle_report : list (list string)
}.

Definition initial : state :=
  {| resolved := []; temp := ∅; visited := ∅; cycle_report := [] |}.

Section Visit.
Context `{HashOrder}.
Variable graph : gmap string (gset string).

(** [sorted(graph.get(node, []))] *)
Definition deps_of (node : string) : list string :=
  sorted (set_iter (default ∅ (graph !! node))).

(** The loop [for dep in ...: visit(dep, stack + [dep])], over a given
    [visit]. *)
Fixpoint visit_deps (visit : string → list string → state → result state)
    (stack : list string) (deps : list string) (s : state) : result state :=
  match deps with
  | [] => Ok s
  | dep :: deps' =>
      s' ←ᵣ visit dep (stack ++ [dep]) s;
      visit_deps visit stack deps' s'
  end.

(** [visit].  [depth] is the number of nested calls that the interpreter
    still allows: a call made when none is left raises [RecursionError],
    and the calls made from the body have one less. *)
Fixpoint visit (depth : nat) (node : string) (stack : list string)
    (s : state) : result state :=
  match depth with
  | O => Raise RecursionError
  | S depth' =>
      if decide (node ∈ visited s) then Ok s
      else if decide (node ∈ temp s) then
        match index node stack with
        | None => Raise ValueError
        | Some i =>
            let cycle := drop i stack ++ [node] in
            Ok {| resolved := resolved s; temp := temp s;
                  visited := visited s;
                  cycle_report := cycle_report s ++ [cycle] |}
        end
      else
        let s1 := {| resolved := resolved s; temp := {[node]} ∪ temp s;
                     visited := visited s;
                     cycle_report := cycle_report s |} in
        s2 ←ᵣ visit_deps (visit depth') stack (deps_of node) s1;
        Ok {| resolved := resolved s2 ++ [node];
              temp := temp s2 ∖ {[node]};
              visited := {[node]} ∪ visited s2;
              cycle_report := cycle_report s2 |}
  end.

(** The loop [for table in sorted(graph): visit(table, [table])]. *)
Fixpoint visit_tables (depth : nat) (tables : list string) (s : state)
    : result state :=
  match tables with
  | [] => Ok s
  | table :: tables' =>
      s' ←ᵣ visit depth table [table] s;
      visit_tables depth tables' s'
  end.

(** The traversal of [main].  [limit] is the number of nested calls of
    [visit] that the interpreter allows when [main] makes the first one:
    its recursion limit less the frames already in use.  An exception
    leaves [main], and the script, at once. *)
Definition resolve (limit : nat) : result state :=
  visit_tables limit (sorted (set_iter (dom graph))) initial.

End Visit.

Section Main.
Context `{HashOrder}.

(** [parse_fks]: the set of table names that the pattern [FK_PATTERN]
    captures in a text.  The matching is done by Python's [re] library;
    the function is a parameter. *)
Variable parse_fks : string → gset string.

(** The loop of [main] over the [*.sql] files of the directory: [listing]
    gives, in the order of the directory listing, each file's stem and
    text. *)
Definition build_graph (listing : list (string * string))
    : gmap string (gset string) :=
  foldl (λ graph '(table, text),
           if contains "CREATE TABLE" text
           then <[table := parse_fks text]> graph else graph)
        ∅ listing.

(** One line of the report per table, numbered from [idx]. *)
Fixpoint report_order (graph : gmap string (gset string)) (idx : nat)
    (resolved : list string) : string :=
  match resolved with
  | [] => ""
  | table :: resolved' =>
      let parents := join ", " (deps_of graph table) in
      str_of_nat_02 idx +:+ ". " +:+ table +:+ " -> depends on "
      +:+ (if nonempty parents then parents else "none") +:+ nl
      +:+ report_order graph (S idx) resolved'
  end.

Definition report_cycles (cycle_report : list (list string)) : string :=
  match cycle_report with
  | [] => "No cycles detected." +:+ nl
  | _ => "Cycles detected:" +:+ nl
         +:+ String.concat "" ((λ cycle, join " -> " cycle +:+ nl) <$> cycle_report)
  end.

Definition report_text (graph : gmap string (gset string)) (s : state) : string :=
  "Dependency order (parent -> child):" +:+ nl
  +:+ report_order graph 1 (resolved s) +:+ nl
  +:+ report_cycles (cycle_report s).

(** [main]: the Resolved Order (serialised to the order file) and the
    text of the report file. *)
Definition main (limit : nat) (listing : list (string * string))
    : result (list string * string) :=
  let graph := build_graph listing in
  s ←ᵣ resolve graph limit;
  Ok (resolved s, report_text graph s).

End Main.

(** The recursion limit of CPython when a program does not set one
    ([sys.getrecursionlimit()]); the scripts do not set one.  The frames
    of the module and of [main] are in use when [visit] is first called,
    so fewer nested calls of [visit] than this are allowed. *)
Definition default_recursion_limit : nat := 1000.

End Resolver.

(** The iteration order that stdpp's [elements] happens to give. *)
Global Instance canonical_order : HashOrder :=
  {| set_iter := elements; set_iter_perm := λ X, reflexivity _ |}.

(** ** split_by_schema.py *)

Module Splitter.

(** *** Configuration *)

Definition GROUPS : list (string * gset string) :=
  [ ("core", list_to_set
       ["roles"; "permissions"; "role_permissions"; "positions";
        "role_positions"; "users"; "password_history"; "password_reset_otps";
        "refresh_tokens"; "mfa_role_settings"; "mfa_verification_attempts"]);
    ("project", list_to_set
       ["projects"; "project_users"; "project_milestones"; "project_files";
        "project_client_call_notes"; "project_daily_status";
        "project_comments"; "tasks"; "task_comments"; "task_history"; "bugs";
        "bug_comments"; "attachments"; "timesheets"]);
    ("support", list_to_set
       ["employees"; "employee_documents"; "attendance"; "leaves";
        "reimbursements"; "holidays"; "asset_categories"; "assets";
        "asset_laptop_details"; "asset_mobile_details";
        "asset_accessory_details"; "asset_assignments"; "asset_tickets";
        "asset_ticket_comments"; "asset_ticket_attachments";
        "asset_audit_logs"; "asset_maintenance"; "asset_approvals";
        "inventory_items"; "inventory_transactions";
        "inventory_attachments"]);
    ("misc", list_to_set
       ["notifications"; "audit_logs"; "settings"; "fcm_tokens";
        "calendar_reminders"]) ].

Definition GROUP_ORDER : list string := ["core"; "project"; "support"; "misc"].

Definition ALLOWED_SEED_TABLES : gset string :=
  list_to_set ["roles"; "permissions"; "role_permissions"; "positions";
               "role_positions"; "settings"].

Definition LINE_LIMIT : nat := 600.

(** [OUTPUT_FILES]: the keys in the order of the dict literal, each with
    the name of its file under [schema/]. *)
Definition OUTPUT_FILES : list (string * string) :=
  [ ("core", "00_schema_core.sql"); ("project", "01_schema_project.sql");
    ("support", "02_schema_support.sql"); ("misc", "03_schema_misc.sql");
    ("seed", "10_seed_production.sql") ].

(** *** The files the script writes, and the monad of its effects

    The script appends to [LOG_FILE] while it runs and writes the output
    files at the end.  What is on disk survives an exception, so the
    files are threaded through both outcomes. *)

Record files := mk_files {
  log_file : string;
  output_files : gmap string string
}.

Definition M (A : Type) : Type := files → result A * files.

Definition ret {A} (a : A) : M A := λ w, (Ok a, w).
Definition raise {A} (e : exn) : M A := λ w, (Raise e, w).
Definition bind {A B} (m : M A) (k : A → M B) : M B :=
  λ w, match m w with
       | (Ok a, w') => k a w'
       | (Raise e, w') => (Raise e, w')
       end.
Definition lift {A} (r : result A) : M A := λ w, (r, w).

(** [with LOG_FILE.open("a") as log: log.write(line)] *)
Definition log_append (line : string) : M unit :=
  λ w, (Ok (), {| log_file := log_file w +:+ line;
                  output_files := output_files w |}).

(** [path.write_text(content)] on an output file. *)
Definition write_text (path content : string) : M unit :=
  λ w, (Ok (), {| log_file := log_file w;
                  output_files := <[path := content]> (output_files w) |}).

(** [LOG_FILE.write_text("")] *)
Definition log_truncate : M unit :=
  λ w, (Ok (), {| log_file := ""; output_files := output_files w |}).

Notation "x ← m ; k" := (bind m (λ x, k))
  (at level 20, m at level 100, k at level 200, right associativity,
   format "x  ←  m ;  '/' k").
Notation "m ;; k" := (bind m (λ _, k))
  (at level 100, k at level 200, right associativity).

(** *** The functions of the script *)

(** The loop of [split_statements]: [buffer] and [stmts] are its two
    accumulators. *)
Fixpoint split_loop (text buffer : string) (stmts : list string)
    : list string * string :=
  match text with
  | EmptyString => (stmts, buffer)
  | String char text' =>
      let buffer := buffer +:+ String char "" in
      if decide (char = ";"%char) then
        let stmt := strip buffer in
        split_loop text' "" (if nonempty stmt then stmts ++ [stmt] else stmts)
      else split_loop text' buffer stmts
  end.

Definition split_statements (text : string) : list string :=
  let '(stmts, buffer) := split_loop text "" [] in
  if nonempty buffer then
    let trailing := strip buffer in
    if nonempty trailing then stmts ++ [trailing] else stmts
  else stmts.

Definition is_ddl (statement : string) : bool :=
  startswith (upper (lstrip statement)) "CREATE TABLE".

Definition is_insert (statement : string) : bool :=
  startswith (upper (lstrip statement)) "INSERT INTO".

(** The in-memory state of [main]. *)
Record groups := mk_groups {
  group_contents : gmap string string;
  group_lines : gmap string nat;
  seeds : list string
}.

(** [d[key]] raises [KeyError] on a missing key. *)
Definition getitem {V} (d : gmap string V) (key : string) : result V :=
  match d !! key with
  | Some v => Ok v
  | None => Raise (KeyError key)
  end.

(** [write_group_content]: the dicts are updated in place, so the new
    state is returned with the boolean. *)
Definition write_group_content (group table content : string) (st : groups)
    : result (bool * groups) :=
  let lines := count_newlines content + 1 in
  current ←ᵣ getitem (group_lines st) group;
  if LINE_LIMIT <? current + lines then Ok (false, st)
  else
    body ←ᵣ getitem (group_contents st) group;
    let body' := body +:+ (if nonempty body then blank_line +:+ content
                           else content) in
    Ok (true, {| group_contents := <[group := body']> (group_contents st);
                 group_lines := <[group := current + lines]> (group_lines st);
                 seeds := seeds st |}).

Fixpoint assign_group_in (pools : list (string * gset string)) (table : string)
    : string :=
  match pools with
  | [] => "misc"
  | (group, pool) :: pools' =>
      if decide (table ∈ pool) then group else assign_group_in pools' table
  end.

Definition assign_group (table : string) : string :=
  assign_group_in GROUPS table.

(** The helper [log_reassignment]; [main] does not call it. *)
Definition log_reassignment (table from_group to_group : string) : M unit :=
  log_append ("Table " +:+ table +:+ " moved from " +:+ from_group +:+ " to "
              +:+ to_group +:+ nl).

Definition prepare_group_files : M unit :=
  foldr (λ '(_, path) k, write_text path "" ;; k) (ret ()) OUTPUT_FILES ;;
  log_truncate.

(** [l[i]] raises [IndexError] out of range. *)
Definition list_getitem (l : list string) (i : nat) : result string :=
  match l !! i with
  | Some x => Ok x
  | None => Raise IndexError
  end.

Definition exceeded_line (current_group table next_group : string) : string :=
  "Exceeded " +:+ str_of_nat LINE_LIMIT +:+ " lines in " +:+ current_group
  +:+ ", moving " +:+ table +:+ " to " +:+ next_group +:+ nl.

Definition exit_message (table : string) : string :=
  "Line limit reached for all groups while placing " +:+ table.

(** The [while group_index < len(GROUP_ORDER)] loop of [main].  Every
    iteration that continues increments [group_index], so
    [len(GROUP_ORDER)] iterations are enough; [fuel] counts them. *)
Fixpoint place (fuel : nat) (table ddl_block : string) (group_index : nat)
    (st : groups) : M groups :=
  if length GROUP_ORDER <=? group_index then ret st
  else
    match fuel with
    | O => raise OutOfFuel
    | S fuel' =>
        current_group ← lift (list_getitem GROUP_ORDER group_index);
        written ← lift (write_group_content current_group table ddl_block st);
        let '(ok, st') := written in
        if ok : bool then ret st'
        else if length GROUP_ORDER <=? group_index + 1 then
          raise (SystemExit (exit_message table))
        else
          next_group ← lift (list_getitem GROUP_ORDER (group_index + 1));
          log_append (exceeded_line current_group table next_group) ;;
          place fuel' table ddl_block (group_index + 1) st'
    end.

(** [append_seed] *)
Definition append_seed (content : string) (seeds : list string) : list string :=
  seeds ++ [content].

(** The loop [for insert_stmt in insert_statements]. *)
Definition collect_seeds (table : string) (insert_statements : list string)
    (st : groups) : groups :=
  {| group_contents := group_contents st;
     group_lines := group_lines st;
     seeds := foldl (λ seeds insert_stmt,
                       if decide (table ∈ ALLOWED_SEED_TABLES)
                       then append_seed insert_stmt seeds else seeds)
                    (seeds st) insert_statements |}.

(** [GROUP_ORDER.index(target_group)] *)
Definition group_index_of (target_group : string) : result nat :=
  match index target_group GROUP_ORDER with
  | Some i => Ok i
  | None => Raise ValueError
  end.

(** One iteration of [for table in order]; [extracted] is the directory
    of the per-table files, by table name. *)
Definition process_table (extracted : gmap string string) (table : string)
    (st : groups) : M groups :=
  match extracted !! table with
  | None => ret st
  | Some text =>
      let statements := split_statements text in
      let ddl_statements := List.filter is_ddl statements in
      let insert_statements := List.filter is_insert statements in
      match ddl_statements with
      | [] => ret st
      | _ =>
          let ddl_block := join blank_line ddl_statements in
          let target_group := assign_group table in
          group_index ← lift (group_index_of target_group);
          st' ← place (length GROUP_ORDER) table ddl_block group_index st;
          ret (collect_seeds table insert_statements st')
      end
  end.

Fixpoint for_tables (extracted : gmap string string) (order : list string)
    (st : groups) : M groups :=
  match order with
  | [] => ret st
  | table :: order' =>
      st' ← process_table extracted table st;
      for_tables extracted order' st'
  end.

Definition initial_groups : groups :=
  {| group_contents := list_to_map ((λ grp, (grp, "")) <$> GROUP_ORDER);
     group_lines := list_to_map ((λ grp, (grp, 0)) <$> GROUP_ORDER);
     seeds := [] |}.

Definition seed_header : string := "-- Seed file (DDL stripped)" +:+ nl.

(** The loop [for group, path in OUTPUT_FILES.items()]. *)
Fixpoint write_outputs (outputs : list (string * string)) (st : groups)
    : M unit :=
  match outputs with
  | [] => ret ()
  | (group, path) :: outputs' =>
      (if decide (group = "seed") then
         write_text path (seed_header +:+ join blank_line (seeds st))
       else
         body ← lift (getitem (group_contents st) group);
         if nonempty body then write_text path body
         else write_text path ("-- " +:+ group +:+ " schema pending" +:+ nl)) ;;
      write_outputs outputs' st
  end.

(** [main]; [order] is what [load_order] reads from the order file. *)
Definition main (extracted : gmap string string) (order : list string)
    : M unit :=
  st ← for_tables extracted order initial_groups;
  write_outputs OUTPUT_FILES st.

(** The two [if __name__ == "__main__":] blocks at the end of the file,
    in order. *)
Definition script (extracted : gmap string string) (order : list string)
    : M unit :=
  (prepare_group_files ;; main extracted order) ;;
  main extracted order.

End Splitter.

(** ** Notions in which the properties of the resolver are stated *)

Module ResolverSpec.
Import Resolver.

Section spec.
Context `{HashOrder}.
Variable graph : gmap string (gset string).

(** [D] stands before [T] in the list [l]. *)
Definition before (D T : string) (l : list string) : Prop :=
  ∃ i j, index D l = Some i ∧ index T l = Some j ∧ i < j.

(** [T] and [D] occur together in one of the reported cycles. *)
Definition in_reported_cycle (T D : string) (cs : list (list string)) : Prop :=
  ∃ c, c ∈ cs ∧ T ∈ c ∧ D ∈ c.

(** The shape of the cycles that [visit] reports: the path from a node
    back to itself, followed by the node once more. *)
Definition closed_twice (c : list string) : Prop :=
  ∃ x l, c = x :: l ++ [x; x].

Definition ordered (s : state) : Prop :=
  ∀ T D, T ∈ resolved s → D ∈ deps_of graph T →
    before D T (resolved s) ∨ in_reported_cycle T D (cycle_report s).

(** The state between two steps of a traversal whose nodes in progress
    are those of the path [pre]. *)
Record inv (pre : list string) (s : state) : Prop := {
  inv_temp : ∀ x, x ∈ temp s ↔ x ∈ pre;
  inv_visited : ∀ x, x ∈ visited s ↔ x ∈ resolved s;
  inv_disjoint : ∀ x, x ∈ visited s → x ∉ temp s;
  inv_nodup : NoDup (resolved s);
  inv_ordered : ordered s;
  inv_cycles : Forall closed_twice (cycle_report s)
}.

Record extends (s s' : state) : Prop := {
  ext_visited : visited s ⊆ visited s';
  ext_cycles : ∀ c, c ∈ cycle_report s → c ∈ cycle_report s'
}.

(** What a call [visit(node, pre + [node])] has achieved on return. *)
Definition reached (pre : list string) (node : string) (s' : state) : Prop :=
  node ∈ visited s' ∨
  ∃ c x, c ∈ cycle_report s' ∧ node ∈ c ∧ last pre = Some x ∧ x ∈ c.

End spec.
End ResolverSpec.

(** ** Notions in which the properties of the assignor are stated *)

Module SplitterSpec.
Import Splitter.

(** The line count that [write_group_content] charges for a block. *)
Definition block_lines (content : string) : nat := count_newlines content + 1.

(** The block fits the group: the test of [write_group_content]. *)
Definition fits (st : groups) (group content : string) : Prop :=
  ∃ n, group_lines st !! group = Some n ∧ n + block_lines content ≤ LINE_LIMIT.

(** Every group of [GROUP_ORDER] is a key of both dicts. *)
Definition keyed (st : groups) : Prop :=
  ∀ g, g ∈ GROUP_ORDER →
    is_Some (group_lines st !! g) ∧ is_Some (group_contents st !! g).

(** No accumulated line count exceeds the limit. *)
Definition within_budget (st : groups) : Prop :=
  ∀ g n, group_lines st !! g = Some n → n ≤ LINE_LIMIT.

(** The state after the block has been written to the group. *)
Definition placed_in (group content : string) (st st' : groups) : Prop :=
  write_group_content group "" content st = Ok (true, st').

(** The log lines of the cascade of [table] that starts at position [i]
    of [GROUP_ORDER] and moves [n] groups forward. *)
Fixpoint cascade_lines (table : string) (i n : nat) : string :=
  match n with
  | O => ""
  | S n' =>
      exceeded_line (default "" (GROUP_ORDER !! i)) table
                    (default "" (GROUP_ORDER !! (i + 1)))
      +:+ cascade_lines table (i + 1) n'
  end.

(** The files after a cascade of [n] steps from position [i]. *)
Definition logged (table : string) (i n : nat) (w : files) : files :=
  {| log_file := log_file w +:+ cascade_lines table i n;
     output_files := output_files w |}.

(** The structural block of a table file, if it has one. *)
Definition ddl_block_of (text : string) : option string :=
  match List.filter is_ddl (split_statements text) with
  | [] => None
  | ddl_statements => Some (join blank_line ddl_statements)
  end.

(** In state [st], the block of [table] fits no group from its preferred
    group to the last one. *)
Definition unplaceable (extracted : gmap string string) (table : string)
    (st : groups) : Prop :=
  ∃ text block p,
    extracted !! table = Some text ∧ ddl_block_of text = Some block ∧
    index (assign_group table) GROUP_ORDER = Some p ∧
    ∀ k g, p ≤ k → GROUP_ORDER !! k = Some g → ¬ fits st g block.

(** The text has a statement terminator. *)
Fixpoint has_semicolon (s : string) : bool :=
  match s with
  | String c s' => if decide (c = ";"%char) then true else has_semicolon s'
  | EmptyString => false
  end.

(** A piece of text that ends at its first terminator, if it has one. *)
Definition one_statement (s : string) : Prop :=
  ∃ u, has_semicolon u = false ∧ (s = u ∨ s = u +:+ ";").

(** The first character after the leading white space satisfies [H]. *)
Definition headed (H : ascii → bool) (s : string) : Prop :=
  match lstrip s with
  | String c _ => H c = true
  | EmptyString => False
  end.

(** The text is white space only. *)
Definition blank (s : string) : Prop := lstrip s = "".

(** The pieces of [sep.join(parts)]. *)
Fixpoint interleave (sep : string) (parts : list string) : list string :=
  match parts with
  | [] => []
  | [x] => [x]
  | x :: parts' => x :: sep :: interleave sep parts'
  end.

(** The first characters with which a structural statement, and a
    statement of the seed file, can begin. *)
Definition create_head (c : ascii) : bool :=
  bool_decide (upper_char c = "C"%char).
Definition seed_head (c : ascii) : bool :=
  bool_decide (upper_char c = "I"%char) || bool_decide (c = "-"%char).

(** A structural statement, as [main] selects them: a statement of one
    of the table files that passes [is_ddl]; it is then no insertion
    statement. *)
Definition structural (extracted : gmap string string) (s : string) : Prop :=
  is_ddl s = true ∧ is_insert s = false ∧
  ∃ table text, extracted !! table = Some text ∧ s ∈ split_statements text.

(** A statement of the seed collection: an insertion statement of the
    file of a table on the allow-list. *)
Definition seed_statement (extracted : gmap string string) (s : string) : Prop :=
  is_insert s = true ∧ is_ddl s = false ∧
  ∃ table text, table ∈ ALLOWED_SEED_TABLES ∧ extracted !! table = Some text ∧
                s ∈ split_statements text.

(** The text of a group file: structural statements separated by blank
    lines. *)
Definition structural_text (extracted : gmap string string) (body : string)
    : Prop :=
  ∃ stmts, body = join blank_line stmts ∧ Forall (structural extracted) stmts.

(** The text that [main] writes to the file of a group. *)
Definition group_file_text (group body : string) : string :=
  if nonempty body then body else "-- " +:+ group +:+ " schema pending" +:+ nl.

(** The output files after [main] has written them. *)
Definition written (st : groups) (c p s m : string) (w : files) : files :=
  {| log_file := log_file w;
     output_files :=
       <["10_seed_production.sql" := seed_header +:+ join blank_line (seeds st)]>
       (<["03_schema_misc.sql" := group_file_text "misc" m]>
       (<["02_schema_support.sql" := group_file_text "support" s]>
       (<["01_schema_project.sql" := group_file_text "project" p]>
       (<["00_schema_core.sql" := group_file_text "core" c]>
          (output_files w))))) |}.

(** The files after [prepare_group_files]. *)
Definition prepared (w : files) : files :=
  {| log_file := "";
     output_files :=
       <["10_seed_production.sql" := ""]>
       (<["03_schema_misc.sql" := ""]>
       (<["02_schema_support.sql" := ""]>
       (<["01_schema_project.sql" := ""]>
       (<["00_schema_core.sql" := ""]> (output_files w))))) |}.

(** The contents of the five output files, in the order of
    [OUTPUT_FILES]. *)
Definition output_texts (w : files) : list (option string) :=
  (λ '(_, path), output_files w !! path) <$> OUTPUT_FILES.

(** [w] with [delta] appended to the log. *)
Definition with_log (delta : string) (w : files) : files :=
  {| log_file := log_file w +:+ delta; output_files := output_files w |}.

(** A computation whose result does not depend on the files it starts
    from, and whose only effect on them is to append [delta] to the log. *)
Definition appends {A} (m : M A) (r : result A) (delta : string) : Prop :=
  ∀ w, m w = (r, {| log_file := log_file w +:+ delta;
                    output_files := output_files w |}).

(** What [main] maintains between two tables. *)
Record sound (extracted : gmap string string) (st : groups) : Prop := {
  sound_keyed : keyed st;
  sound_budget : within_budget st;
  sound_seeds : Forall (seed_statement extracted) (seeds st);
  sound_contents :
    ∀ g body, group_contents st !! g = Some body →
      structural_text extracted body
}.

End SplitterSpec.

(** ** The two scripts in sequence *)

Module Pipeline.

Record outcome := mk_outcome {
  resolver_result : result (list string * string);
  splitter_result : option (result ());
  final_log : string;
  final_outputs : list (option string)
}.

(** A run of [resolve_dependencies.py] followed by [split_by_schema.py]
    on the directory [extracted] of per-table files.  [listing] is the
    directory as the resolver's [glob] enumerates it, [w] what is on disk
    before, [limit] the depth of recursion that the interpreter allows the
    resolver.  The splitter reads the order that the resolver wrote; it
    is not run when the resolver raised. *)
Definition run `{HashOrder} (limit : nat) (parse_fks : string → gset string)
    (extracted : gmap string string) (listing : list (string * string))
    (w : Splitter.files) : outcome :=
  match Resolver.main parse_fks limit listing with
  | Ok (order, report) =>
      let '(r, w') := Splitter.script extracted order w in
      {| resolver_result := Ok (order, report);
         splitter_result := Some r;
         final_log := Splitter.log_file w';
         final_outputs := SplitterSpec.output_texts w' |}
  | Raise e =>
      {| resolver_result := Raise e;
         splitter_result := None;
         final_log := Splitter.log_file w;
         final_outputs := SplitterSpec.output_texts w |}
  end.

End Pipeline.

(** ** Notions in which the independence of enumeration orders is stated *)

Module OrderSpec.

(** What [build_graph] yields for the table [k] of a directory. *)
Definition graph_entry (parse_fks : string → gset string)
    (extracted : gmap string string) (k : string) : option (gset string) :=
  match extracted !! k with
  | Some text =>
      if contains "CREATE TABLE" text then Some (parse_fks text) else None
  | None => None
  end.

(** An iteration order other than the canonical one: the reverse. *)
Definition reversed_order : HashOrder :=
  {| set_iter := λ X, reverse (elements X);
     set_iter_perm := λ X, reverse_Permutation (elements X) |}.

End OrderSpec.

(** ** Concrete inputs *)

Module Examples.
Import Splitter.

(** [roles] has no foreign key, [role_permissions] references [roles]. *)
Definition graph_roles : gmap string (gset string) :=
  <["roles" := ∅]> (<["role_permissions" := {["roles"]}]> ∅).

(** [a] references [b] and [b] references [a]. *)
Definition graph_ab : gmap string (gset string) :=
  <["a" := {["b"]}]> (<["b" := {["a"]}]> ∅).

(** A ring of [n] tables [t0], [t1], ...: each references the next, and
    the last references the first. *)
Definition table_name (i : nat) : string := "t" +:+ str_of_nat i.

Definition ring (n : nat) : gmap string (gset string) :=
  list_to_map
    ((λ i, (table_name i, {[table_name (S i `mod` n)]})) <$> seq 0 n).

(** A [CREATE TABLE] statement of [n + 1] lines. *)
Definition create_table (name : string) (n : nat) : string :=
  "CREATE TABLE `" +:+ name +:+ "` (" +:+ String.concat "" (replicate n nl)
  +:+ ");".

(** Two tables of the core group, 400 lines each; [roles] has a row. *)
Definition two_core_tables : gmap string string :=
  <["roles" := create_table "roles" 399 +:+ nl
               +:+ "INSERT INTO `roles` VALUES (1);"]>
  (<["users" := create_table "users" 399]> ∅).

(** A table file with one insertion statement and no structural one; the
    inserted text mentions [CREATE TABLE]. *)
Definition insert_only : string :=
  "INSERT INTO `roles` VALUES (1, 'CREATE TABLE');".

(** A table file that has only an insertion statement. *)
Definition seed_only : gmap string string :=
  {["roles" := "INSERT INTO `roles` VALUES (1);"]}.

(** A stand-in for the pattern matching of [parse_fks]. *)
Definition references_roles (text : string) : gset string :=
  if contains "REFERENCES `roles`" text then {["roles"]} else ∅.

(** Files on disk before a run. *)
Definition stale_files : files :=
  {| log_file := "Table old moved from core to project" +:+ nl;
     output_files := ∅ |}.

Definition empty_files : files := {| log_file := ""; output_files := ∅ |}.

(** The state of [main] after the tables of [order], or the initial one
    when the loop raised. *)
Definition state_after (extracted : gmap string string) (order : list string)
    : groups :=
  match for_tables extracted order initial_groups empty_files with
  | (Ok st, _) => st
  | (Raise _, _) => initial_groups
  end.

Definition files_after (extracted : gmap string string) (order : list string)
    : files :=
  (for_tables extracted order initial_groups empty_files).2.

End Examples.
(** * Further notions *)

(** ** The graph as a relation, and its paths *)

Module GraphSpec.

(** [y] is a dependency of the node [x]. *)
Definition edge (graph : gmap string (gset string)) (x y : string) : Prop :=
  ∃ deps, graph !! x = Some deps ∧ y ∈ deps.

(** Each element of the list is a dependency of the one before it. *)
Definition is_path (graph : gmap string (gset string)) (l : list string)
    : Prop :=
  ∀ i x y, l !! i = Some x → l !! S i = Some y → edge graph x y.

(** The tables that occur in the graph, as a node or as a dependency. *)
Definition occurs (graph : gmap string (gset string)) (t : string) : Prop :=
  t ∈ dom graph ∨ ∃ T, edge graph T t.

(** No table depends on itself, directly or through others. *)
Definition acyclic (graph : gmap string (gset string)) : Prop :=
  ∀ x l, ¬ is_path graph (x :: l ++ [x]).

(** A reported cycle: a path of the graph from a node back to itself,
    followed by the node once more. *)
Definition closed_path_twice (graph : gmap string (gset string))
    (c : list string) : Prop :=
  ∃ x l, c = (x :: l ++ [x]) ++ [x] ∧ is_path graph (x :: l ++ [x]).

End GraphSpec.

(** ** The blocks and seeds that a run has to place *)

Module CoverageSpec.
Import Splitter SplitterSpec.

(** The structural blocks of the tables of [order], in this order: one
    for each table that has a file with a structural statement. *)
Definition blocks_of (extracted : gmap string string) (order : list string)
    : list string :=
  omap (λ table, extracted !! table ≫= ddl_block_of) order.

(** The insertion statements that the tables of [order] contribute to the
    seed collection, in this order. *)
Definition seeds_of (extracted : gmap string string) (order : list string)
    : list string :=
  order ≫= λ table,
    match extracted !! table with
    | Some text =>
        match ddl_block_of text with
        | Some _ =>
            if decide (table ∈ ALLOWED_SEED_TABLES)
            then List.filter is_insert (split_statements text) else []
        | None => []
        end
    | None => []
    end.

(** The dicts of [st] hold, for every group, the blocks [placed group]
    joined by blank lines and the sum of their line counts. *)
Definition accounted (st : groups) (placed : string → list string) : Prop :=
  ∀ g, g ∈ GROUP_ORDER →
    group_contents st !! g = Some (join blank_line (placed g)) ∧
    group_lines st !! g = Some (sum_list (block_lines <$> placed g)) ∧
    Forall (λ b, b ≠ "") (placed g).

End CoverageSpec.

(** ** extract_tables.py *)

Module Extractor.

Definition EXCLUDE_PATTERNS : list string := ["remove_"].

Definition EXCLUDED_TABLES : gset string :=
  list_to_set
    ["prompts"; "prompt_logs"; "asset_settings"; "project_activities";
     "project_change_requests"; "project_credentials"; "kanban_boards";
     "kanban_columns"; "kanban_tasks"; "kanban_integrations";
     "kanban_task_history"; "kanban_board_members"; "kanban_time_logs"].

(** [_sql_files]: the files of the listing whose name starts with none of
    [EXCLUDE_PATTERNS]. *)
Definition _sql_files (listing : list (string * string))
    : list (string * string) :=
  List.filter (λ '(name, _), negb (existsb (startswith name) EXCLUDE_PATTERNS))
              listing.

(** [_sanitize] *)
Definition _sanitize (text : string) : string := strip text.

(** [extracted.setdefault(table, []).append(_sanitize(block))] *)
Definition add_block (extracted : gmap string (list string))
    (table block : string) : gmap string (list string) :=
  <[table := default [] (extracted !! table) ++ [_sanitize block]]> extracted.

(** One of the two loops over the matches of a pattern: each match gives
    the table name and the text of group 1. *)
Definition add_matches (matches : list (string * string))
    (extracted : gmap string (list string)) : gmap string (list string) :=
  foldl (λ extracted '(table, block),
           if decide (table ∈ EXCLUDED_TABLES) then extracted
           else add_block extracted table block)
        extracted matches.

(** The header line and the text of a per-table file. *)
Definition header (table : string) : string :=
  "-- Extracted definition for " +:+ table +:+ nl.

Definition file_text (table : string) (blocks : list string) : string :=
  header table +:+ join blank_line blocks.

Section Main.
(** The matches of [CREATE_PATTERN] and of [INSERT_PATTERN] in a text, as
    Python's [re] finds them: parameters. *)
Variables create_matches insert_matches : string → list (string * string).

(** The first loop of [main], over the source files. *)
Definition collect (files : list (string * string))
    : gmap string (list string) :=
  foldl (λ extracted '(_, text),
           add_matches (insert_matches text)
             (add_matches (create_matches text) extracted))
        ∅ files.

(** [main]: the directory of per-table files after the run, [old] being
    what it held before.  A file is written for each collected table;
    nothing is removed. *)
Definition main (listing : list (string * string)) (old : gmap string string)
    : gmap string string :=
  map_imap (λ table blocks, Some (file_text table blocks))
           (collect (_sql_files listing)) ∪ old.

End Main.

End Extractor.

(** ** Notions in which the properties of the extractor are stated *)

Module ExtractorSpec.
Import Extractor.

(** The sanitized blocks that a list of matches gives for one table. *)
Definition matches_for (table : string) (matches : list (string * string))
    : list string :=
  omap (λ '(t, block), if decide (t = table) then Some (_sanitize block)
                       else None) matches.

(** The blocks of one table over the source files, in the order in which
    [main] collects them: file after file, in each file the matches of
    [CREATE_PATTERN] before those of [INSERT_PATTERN]. *)
Definition blocks_for (create_matches insert_matches : string → list (string * string))
    (files : list (string * string)) (table : string) : list string :=
  files ≫= λ '(_, text),
    matches_for table (create_matches text)
    ++ matches_for table (insert_matches text).

(** The lists of a dict of blocks are not empty. *)
Definition no_empty_list (extracted : gmap string (list string)) : Prop :=
  ∀ t, extracted !! t ≠ Some [].

End ExtractorSpec.

(** ** validate_schema.py, [count_tables] *)

Module Validator.

(** [count_tables]: [order] is the content of the order file, [None] when
    the file does not exist. *)
Definition count_tables (order : option (list string))
    : gset string * gset string :=
  match order with
  | None => (∅, ∅)
  | Some order =>
      (list_to_set order,
       list_to_set (List.filter (λ table, 1 <? count table order) order))
  end.

End Validator.

Module MoreExamples.

(** A file as the extractor writes it for a table with one definition and
    one row. *)
Definition roles_blocks : list string :=
  ["CREATE TABLE IF NOT EXISTS `roles` (`id` INT) ENGINE=InnoDB;";
   "INSERT INTO `roles` VALUES (1);"].

End MoreExamples.
(** * Properties of the resolver *)

Section index_facts.
Implicit Types (x y : string) (l : list string).

Lemma index_lookup x l i : index x l = Some i → l !! i = Some x.
Proof.
  revert i. induction l as [|y l IH]; intros i; simpl; [done|].
  case_decide as Hxy; [intros [= <-]; by subst|].
  destruct (index x l) as [j|]; simpl; [|done].
  intros [= <-]. by apply IH.
Qed.

Lemma index_lt x l i : index x l = Some i → i < length l.
Proof. intros Hi. apply index_lookup in Hi. by eapply lookup_lt_Some. Qed.

Lemma index_is_Some x l : x ∈ l → is_Some (index x l).
Proof.
  induction 1 as [|x y l Hin IH]; simpl.
  - rewrite decide_True by done. eauto.
  - case_decide; [eauto|]. destruct IH as [j ->]. simpl. eauto.
Qed.

Lemma index_app_l x l l' i : index x l = Some i → index x (l ++ l') = Some i.
Proof.
  revert i. induction l as [|y l IH]; intros i; simpl; [done|].
  case_decide; [done|].
  destruct (index x l) as [j|] eqn:Hj; simpl; [|done].
  intros [= <-]. by rewrite (IH j).
Qed.

Lemma index_app_r x l : x ∉ l → index x (l ++ [x]) = Some (length l).
Proof.
  induction l as [|y l IH]; simpl; intros Hx.
  - by rewrite decide_True.
  - rewrite decide_False by set_solver. rewrite IH by set_solver. done.
Qed.

Lemma count_NoDup x l : NoDup l → x ∈ l → count x l = 1.
Proof.
  induction 1 as [|y l Hy Hnd IH]; simpl; [by intros ?%elem_of_nil|].
  intros [->|Hin]%elem_of_cons.
  - rewrite decide_True by done.
    assert (Hz : ∀ l', y ∉ l' → count y l' = 0).
    { induction l' as [|z l' IH']; simpl; [done|]. intros Hn.
      rewrite decide_False by set_solver. rewrite IH' by set_solver. done. }
    by rewrite Hz.
  - rewrite decide_False by (intros ->; done). by rewrite IH.
Qed.
End index_facts.

Section sorted_facts.
Lemma sorted_perm xs : sorted xs ≡ₚ xs.
Proof. apply merge_sort_Permutation. Qed.

Lemma sorted_elem_of x xs : x ∈ sorted xs ↔ x ∈ xs.
Proof. by rewrite sorted_perm. Qed.

(** The result of [sorted] does not depend on the order of its input. *)
Lemma sorted_order_irrel xs ys : xs ≡ₚ ys → sorted xs = sorted ys.
Proof.
  intros Hp. apply (Sorted_unique String.le).
  - apply (Sorted_merge_sort String.le).
  - apply (Sorted_merge_sort String.le).
  - by rewrite !sorted_perm.
Qed.

Lemma sorted_set_iter `{HashOrder} X : sorted (set_iter X) = sorted (elements X).
Proof. apply sorted_order_irrel, set_iter_perm. Qed.

Lemma elem_of_sorted_set_iter `{HashOrder} x X : x ∈ sorted (set_iter X) ↔ x ∈ X.
Proof. by rewrite sorted_elem_of, set_iter_perm, elem_of_elements. Qed.
End sorted_facts.

Module ResolverFacts.
Import Resolver ResolverSpec.

Section traversal.
Context `{HashOrder}.
Variable graph : gmap string (gset string).

Lemma extends_refl s : extends s s.
Proof. by split. Qed.

Lemma extends_trans s1 s2 s3 : extends s1 s2 → extends s2 s3 → extends s1 s3.
Proof. intros [] []. split; [set_solver|auto]. Qed.

Lemma reached_extends pre node s s' :
  reached pre node s → extends s s' → reached pre node s'.
Proof.
  intros [Hv|(c & x & Hc & ? & ? & ?)] [Hvis Hcyc].
  - left. set_solver.
  - right. exists c, x. auto.
Qed.

Lemma deps_of_elem_of node D :
  D ∈ deps_of graph node ↔ ∃ X, graph !! node = Some X ∧ D ∈ X.
Proof.
  unfold deps_of. rewrite elem_of_sorted_set_iter.
  destruct (graph !! node) as [X|]; simpl; [naive_solver|].
  split; [set_solver|naive_solver].
Qed.

Lemma deps_of_absent node : graph !! node = None → deps_of graph node = [].
Proof.
  intros Hn. apply elem_of_nil_inv. intros D HD.
  apply deps_of_elem_of in HD as (X & ? & _). congruence.
Qed.

Lemma before_app D T l l' : before D T l → before D T (l ++ l').
Proof.
  intros (i & j & ? & ? & ?). exists i, j. eauto using index_app_l.
Qed.

Lemma before_snoc D T l : D ∈ l → T ∉ l → before D T (l ++ [T]).
Proof.
  intros [i Hi]%index_is_Some HT. exists i, (length l).
  split_and!; [by apply index_app_l|by apply index_app_r|by eapply index_lt].
Qed.

Lemma cycle_shape pre node i :
  node ∈ pre → index node (pre ++ [node]) = Some i →
  closed_twice (drop i (pre ++ [node]) ++ [node]).
Proof.
  intros Hin Hi.
  destruct (index_is_Some _ _ Hin) as [j Hj].
  rewrite (index_app_l _ _ _ _ Hj) in Hi. injection Hi as <-.
  pose proof (index_lt _ _ _ Hj) as Hlt. apply index_lookup in Hj.
  exists node, (drop (S j) pre).
  rewrite drop_app_le by lia. rewrite (drop_S _ _ _ Hj).
  by rewrite <- !app_assoc.
Qed.

(** The branch of [visit] that reports a cycle. *)
Lemma cycle_branch pre node i :
  node ∈ pre → index node (pre ++ [node]) = Some i →
  ∃ x, last pre = Some x ∧ x ∈ drop i (pre ++ [node]) ++ [node].
Proof.
  intros Hin Hi.
  destruct (index_is_Some _ _ Hin) as [j Hj].
  rewrite (index_app_l _ _ _ _ Hj) in Hi. injection Hi as <-.
  apply index_lt in Hj.
  destruct (last pre) as [x|] eqn:Hl.
  - exists x. split; [done|]. rewrite drop_app_le by lia.
    rewrite last_lookup in Hl.
    rewrite !elem_of_app. left; left.
    apply list_elem_of_lookup. exists (pred (length pre) - j).
    rewrite lookup_drop. rewrite <- Hl. f_equal. lia.
  - apply last_None in Hl. subst. simpl in Hj. lia.
Qed.

Lemma visit_deps_spec (v : string → list string → state → result state) pre :
  (∀ node s, inv graph pre s →
     ∃ s', v node (pre ++ [node]) s = Ok s' ∧
           inv graph pre s' ∧ extends s s' ∧ reached pre node s') →
  ∀ deps s, inv graph pre s →
    ∃ s', visit_deps v pre deps s = Ok s' ∧
          inv graph pre s' ∧ extends s s' ∧ ∀ d, d ∈ deps → reached pre d s'.
Proof.
  intros Hv. induction deps as [|dep deps IH]; intros s Hinv; simpl.
  - exists s. split_and!; [done|done|apply extends_refl|].
    intros d ?%elem_of_nil. done.
  - destruct (Hv dep s Hinv) as (s1 & -> & Hinv1 & Hext1 & Hr1). simpl.
    destruct (IH s1 Hinv1) as (s2 & -> & Hinv2 & Hext2 & Hr2).
    exists s2. split_and!; [done|done|by eapply extends_trans|].
    intros d [->|Hd]%elem_of_cons; [|by apply Hr2].
    by eapply reached_extends.
Qed.

Lemma fuel_step pre node :
  node ∈ dom graph → node ∉ pre →
  size (dom graph ∖ list_to_set (C:=gset string) (pre ++ [node]))
  < size (dom graph ∖ list_to_set (C:=gset string) pre).
Proof.
  intros Hd Hp. apply subset_size. rewrite list_to_set_app_L. simpl.
  assert (node ∉ list_to_set (C:=gset string) pre) by set_solver.
  set_solver.
Qed.

(** Entering the body of [visit]: [temp.add(node)]. *)
Lemma inv_enter pre node s :
  inv graph pre s → node ∉ visited s → node ∉ temp s →
  inv graph (pre ++ [node])
    {| resolved := resolved s; temp := {[node]} ∪ temp s;
       visited := visited s; cycle_report := cycle_report s |}.
Proof.
  intros [Ht Hv Hd Hn Ho Hcy] Hnv Hnt. split; simpl; try done.
  - intros x. rewrite elem_of_app, list_elem_of_singleton. set_solver.
  - intros x Hx. specialize (Hd x Hx). set_solver.
Qed.

(** Leaving it: [temp.remove(node)], [visited.add(node)],
    [resolved.append(node)]. *)
Lemma inv_leave pre node s2 :
  inv graph (pre ++ [node]) s2 → node ∉ pre →
  (∀ d, d ∈ deps_of graph node → reached (pre ++ [node]) d s2) →
  inv graph pre
    {| resolved := resolved s2 ++ [node]; temp := temp s2 ∖ {[node]};
       visited := {[node]} ∪ visited s2; cycle_report := cycle_report s2 |}.
Proof.
  intros [Ht Hv Hd Hn Ho Hcy] Hnp Hr.
  assert (Hnode : node ∈ temp s2) by (apply Ht; set_solver).
  assert (Hnr : node ∉ resolved s2).
  { intros Hin. apply Hv in Hin. by apply Hd in Hin. }
  split; simpl.
  - intros x. rewrite elem_of_difference, Ht, elem_of_app,
      list_elem_of_singleton, elem_of_singleton. naive_solver.
  - intros x. rewrite elem_of_app, list_elem_of_singleton. set_solver.
  - intros x Hx. rewrite elem_of_difference. intros [Hxt Hxn].
    apply elem_of_union in Hx as [Hx|Hx]; [set_solver|]. by apply Hd in Hx.
  - apply NoDup_app. split_and!; [done| |apply NoDup_singleton].
    intros x ? ->%list_elem_of_singleton. done.
  - intros T D HT HD. simpl in *.
    apply elem_of_app in HT as [HT| ->%list_elem_of_singleton].
    + destruct (Ho T D HT HD) as [Hb|Hc]; [left|by right].
      by apply before_app.
    + destruct (Hr D HD) as [Hvis|(c & x & Hc & HDc & Hlast & Hxc)].
      * left. apply before_snoc; [by apply Hv|done].
      * right. rewrite last_snoc in Hlast. injection Hlast as <-.
        by exists c.
  - done.
Qed.

(** The specification of [visit].  The depth allowed, [fuel], is enough
    as soon as it exceeds the number of graph nodes that are not yet in
    progress. *)
Lemma visit_spec fuel : ∀ node pre s,
  inv graph pre s →
  size (dom graph ∖ list_to_set (C:=gset string) pre) < fuel →
  ∃ s', visit graph fuel node (pre ++ [node]) s = Ok s' ∧
        inv graph pre s' ∧ extends s s' ∧ reached pre node s'.
Proof.
  induction fuel as [|fuel IH]; intros node pre s Hinv Hfuel; [lia|].
  simpl. destruct (decide (node ∈ visited s)) as [Hvis|Hvis].
  { exists s. split_and!; [done|done|apply extends_refl|by left]. }
  destruct (decide (node ∈ temp s)) as [Htmp|Htmp].
  { assert (Hpre : node ∈ pre) by by apply Hinv.
    assert (Hi : is_Some (index node (pre ++ [node]))).
    { apply index_is_Some. set_solver. }
    destruct Hi as [i Hi]. rewrite Hi.
    destruct (cycle_branch pre node i Hpre Hi) as (x & Hlast & Hx).
    eexists. split; [done|]. split_and!.
    - destruct Hinv as [Ht Hv Hd Hn Ho Hcy]. split; simpl; try done.
      + intros T D HT HD.
        destruct (Ho T D HT HD) as [?|(c & ? & ?)]; [by left|].
        right. exists c. set_solver.
      + apply Forall_app. split; [done|]. constructor; [|done].
        by eapply cycle_shape.
    - split; simpl; [done|]. set_solver.
    - right. eexists _, x. simpl. split_and!; [|  |done|done].
      + apply elem_of_app. right. by apply list_elem_of_singleton.
      + set_solver. }
  assert (Hnp : node ∉ pre) by (by rewrite <- (inv_temp _ _ _ Hinv)).
  pose proof (inv_enter pre node s Hinv Hvis Htmp) as Hinv1.
  set (s1 := {| resolved := resolved s; temp := {[node]} ∪ temp s;
                visited := visited s; cycle_report := cycle_report s |}) in *.
  assert (Hloop : ∃ s2, visit_deps (visit graph fuel) (pre ++ [node])
                          (deps_of graph node) s1 = Ok s2 ∧
            inv graph (pre ++ [node]) s2 ∧ extends s1 s2 ∧
            ∀ d, d ∈ deps_of graph node → reached (pre ++ [node]) d s2).
  { destruct (graph !! node) as [X|] eqn:Hg.
    - apply visit_deps_spec; [|done]. intros d s0 Hinv0. apply IH; [done|].
      assert (Hdom : node ∈ dom graph) by (apply elem_of_dom; eauto).
      pose proof (fuel_step pre node Hdom Hnp). lia.
    - rewrite deps_of_absent by done. simpl. exists s1.
      split_and!; [done|done|apply extends_refl|].
      intros d ?%elem_of_nil. done. }
  destruct Hloop as (s2 & -> & Hinv2 & Hext2 & Hr2). simpl.
  eexists. split; [done|]. split_and!.
  - by apply inv_leave.
  - destruct Hext2 as [Hv2 Hc2]. split; simpl; [|done]. set_solver.
  - left. simpl. set_solver.
Qed.

Lemma visit_tables_spec fuel : ∀ tables s,
  inv graph [] s → size (dom graph) < fuel →
  ∃ s', visit_tables graph fuel tables s = Ok s' ∧
        inv graph [] s' ∧ extends s s' ∧ ∀ t, t ∈ tables → t ∈ visited s'.
Proof.
  induction tables as [|t tables IH]; intros s Hinv Hfuel; simpl.
  - exists s. split_and!; [done|done|apply extends_refl|].
    intros t ?%elem_of_nil. done.
  - destruct (visit_spec fuel t [] s Hinv) as (s1 & Hs1 & Hinv1 & Hext1 & Hr1).
    { simpl. rewrite difference_empty_L. done. }
    simpl in Hs1. rewrite Hs1. simpl.
    destruct (IH s1 Hinv1 Hfuel) as (s2 & -> & Hinv2 & Hext2 & Hr2).
    exists s2. split_and!; [done|done|by eapply extends_trans|].
    intros t' [->|Ht']%elem_of_cons; [|by apply Hr2].
    destruct Hr1 as [Hv|(c & x & _ & _ & Hl & _)]; [|done].
    by apply Hext2.
Qed.

Lemma inv_initial : inv graph [] initial.
Proof.
  split; simpl; try set_solver.
  - apply NoDup_nil_2.
  - intros T D HT. by apply elem_of_nil in HT.
Qed.

(** A path of the traversal never repeats a node of the graph, and a
    node outside the graph has no dependency: when the interpreter allows
    more nested calls than the graph has nodes, [resolve] returns, and the
    state it returns satisfies the invariant with every node of the graph
    finished. *)
Lemma resolve_enough limit :
  size (dom graph) < limit →
  ∃ s, resolve graph limit = Ok s ∧ inv graph [] s ∧
       ∀ t, t ∈ dom graph → t ∈ visited s.
Proof.
  intros Hlimit. unfold resolve.
  destruct (visit_tables_spec limit
              (sorted (set_iter (dom graph))) initial inv_initial)
    as (s & Hs & Hinv & _ & Hall); [done|].
  exists s. split_and!; [done|done|].
  intros t Ht. apply Hall. by apply elem_of_sorted_set_iter.
Qed.

Lemma visit_deps_mono (v v' : string → list string → state → result state) :
  (∀ node stack s s', v node stack s = Ok s' → v' node stack s = Ok s') →
  ∀ stack deps s s',
    visit_deps v stack deps s = Ok s' → visit_deps v' stack deps s = Ok s'.
Proof.
  intros Hv stack. induction deps as [|dep deps IH]; intros s s'; simpl; [done|].
  destruct (v dep (stack ++ [dep]) s) as [s1|e] eqn:H1; simpl; [|done].
  rewrite (Hv _ _ _ _ H1). simpl. apply IH.
Qed.

(** More depth does not change the result of a traversal that returned. *)
Lemma visit_fuel_mono fuel : ∀ fuel' node stack s s',
  fuel ≤ fuel' →
  visit graph fuel node stack s = Ok s' → visit graph fuel' node stack s = Ok s'.
Proof.
  induction fuel as [|fuel IH]; intros fuel' node stack s s' Hle; [done|].
  destruct fuel' as [|fuel']; [lia|]. simpl.
  repeat case_decide; try done.
  destruct (visit_deps (visit graph fuel) stack (deps_of graph node) _)
    as [s2|e] eqn:H2; simpl; [|done].
  erewrite visit_deps_mono; [done| |exact H2].
  intros. eapply IH; [|done]. lia.
Qed.

Lemma visit_tables_fuel_mono fuel fuel' : fuel ≤ fuel' →
  ∀ tables s s',
    visit_tables graph fuel tables s = Ok s' →
    visit_tables graph fuel' tables s = Ok s'.
Proof.
  intros Hle. induction tables as [|t tables IH]; intros s s'; simpl; [done|].
  destruct (visit graph fuel t [t] s) as [s1|e] eqn:H1; simpl; [|done].
  rewrite (visit_fuel_mono fuel fuel' _ _ _ _ Hle H1). simpl. apply IH.
Qed.

(** An exception of a traversal is [RecursionError], or it is raised with
    more depth as well. *)
Lemma visit_deps_raise (v v' : string → list string → state → result state) :
  (∀ node stack s s', v node stack s = Ok s' → v' node stack s = Ok s') →
  (∀ node stack s e, v node stack s = Raise e →
     e = RecursionError ∨ v' node stack s = Raise e) →
  ∀ stack deps s e,
    visit_deps v stack deps s = Raise e →
    e = RecursionError ∨ visit_deps v' stack deps s = Raise e.
Proof.
  intros Hok Hraise stack.
  induction deps as [|dep deps IH]; intros s e; simpl; [done|].
  destruct (v dep (stack ++ [dep]) s) as [s1|e1] eqn:H1; simpl.
  - rewrite (Hok _ _ _ _ H1). simpl. apply IH.
  - intros [= ->]. destruct (Hraise _ _ _ _ H1) as [->|H1']; [by left|right].
    by rewrite H1'.
Qed.

Lemma visit_depth_raise depth : ∀ depth' node stack s e,
  depth ≤ depth' →
  visit graph depth node stack s = Raise e →
  e = RecursionError ∨ visit graph depth' node stack s = Raise e.
Proof.
  induction depth as [|depth IH]; intros depth' node stack s e Hle.
  { simpl. intros [= <-]. by left. }
  destruct depth' as [|depth']; [lia|]. simpl.
  repeat case_decide; try done.
  - intros Hi. by right.
  - destruct (visit_deps (visit graph depth) stack (deps_of graph node) _)
      as [s2|e2] eqn:H2; simpl; [done|].
    intros [= ->].
    destruct (visit_deps_raise (visit graph depth) (visit graph depth')) with
      (stack := stack) (deps := deps_of graph node) (e := e)
      (s := {| resolved := resolved s; temp := {[node]} ∪ temp s;
               visited := visited s; cycle_report := cycle_report s |})
      as [->|H2']; [| |done|by left|].
    + intros. eapply visit_fuel_mono; [|done]. lia.
    + intros. eapply IH; [|done]. lia.
    + right. by rewrite H2'.
Qed.

Lemma visit_tables_depth_raise depth depth' : depth ≤ depth' →
  ∀ tables s e,
    visit_tables graph depth tables s = Raise e →
    e = RecursionError ∨ visit_tables graph depth' tables s = Raise e.
Proof.
  intros Hle. induction tables as [|t tables IH]; intros s e; simpl; [done|].
  destruct (visit graph depth t [t] s) as [s1|e1] eqn:H1; simpl.
  - rewrite (visit_fuel_mono depth depth' _ _ _ _ Hle H1). simpl. apply IH.
  - intros [= ->].
    destruct (visit_depth_raise depth depth' t [t] s e Hle H1) as [->|H1'];
      [by left|right]. by rewrite H1'.
Qed.

(** The two outcomes of [resolve].  When it returns, the state satisfies
    the invariant with every node of the graph finished, and a larger
    limit gives the same state.  When it raises, the exception is
    [RecursionError] and the graph has at least as many nodes as the
    interpreter allows nested calls. *)
Lemma resolve_cases limit :
  match resolve graph limit with
  | Ok s =>
      inv graph [] s ∧ (∀ t, t ∈ dom graph → t ∈ visited s) ∧
      ∀ limit', limit ≤ limit' → resolve graph limit' = Ok s
  | Raise e => e = RecursionError ∧ limit ≤ size (dom graph)
  end.
Proof.
  set (big := S (limit `max` size (dom graph))).
  destruct (resolve_enough big) as (s & Hs & Hinv & Hall); [unfold big; lia|].
  destruct (resolve graph limit) as [s'|e] eqn:Hr.
  - assert (resolve graph big = Ok s') as Hs'.
    { eapply (visit_tables_fuel_mono limit big); [unfold big; lia|exact Hr]. }
    assert (s' = s) as -> by congruence.
    split_and!; [done..|]. intros limit' Hle.
    by eapply (visit_tables_fuel_mono limit limit').
  - destruct (visit_tables_depth_raise limit big) with
      (tables := sorted (set_iter (dom graph))) (s := initial) (e := e)
      as [->|Hbig]; [unfold big; lia|exact Hr| |unfold resolve in Hs; congruence].
    split; [done|].
    destruct (decide (size (dom graph) < limit)) as [Hlt|]; [|lia].
    destruct (resolve_enough limit Hlt) as (s'' & Hs'' & _). congruence.
Qed.

Lemma resolve_Ok limit s :
  resolve graph limit = Ok s →
  inv graph [] s ∧ ∀ t, t ∈ dom graph → t ∈ visited s.
Proof.
  intros Hs. pose proof (resolve_cases limit) as Hc. rewrite Hs in Hc.
  by destruct Hc as (? & ? & _).
Qed.

Lemma resolve_Raise limit e :
  resolve graph limit = Raise e →
  e = RecursionError ∧ limit ≤ size (dom graph).
Proof. intros He. pose proof (resolve_cases limit) as Hc. by rewrite He in Hc. Qed.

(** Every cycle that the resolver reports ends with a second copy of the
    node that closes it. *)
Lemma reported_cycles_closed_twice limit s :
  resolve graph limit = Ok s → Forall closed_twice (cycle_report s).
Proof. intros [Hinv _]%resolve_Ok. apply Hinv. Qed.

End traversal.
End ResolverFacts.

(** * Properties of the group assignor *)

Module SplitterFacts.
Import Splitter SplitterSpec.

Lemma GROUP_ORDER_length : length GROUP_ORDER = 4.
Proof. reflexivity. Qed.

Lemma fits_dec st group content : Decision (fits st group content).
Proof.
  unfold fits. destruct (group_lines st !! group) as [n|].
  - destruct (decide (n + block_lines content ≤ LINE_LIMIT)).
    + left. eauto.
    + right. intros (m & [= <-] & ?). done.
  - right. intros (m & [=] & _).
Qed.

(** ** [write_group_content] *)

Lemma write_group_content_table group table table' content st :
  write_group_content group table content st
  = write_group_content group table' content st.
Proof. reflexivity. Qed.

Lemma write_group_content_fits group table content st :
  fits st group content → is_Some (group_contents st !! group) →
  ∃ st', write_group_content group table content st = Ok (true, st').
Proof.
  intros (n & Hn & Hle) [body Hb]. unfold write_group_content, getitem.
  rewrite Hn. simpl. fold (block_lines content).
  destruct (LINE_LIMIT <? n + block_lines content) eqn:Hlt.
  { apply Nat.ltb_lt in Hlt. lia. }
  rewrite Hb. simpl. eauto.
Qed.

Lemma write_group_content_full group table content st :
  is_Some (group_lines st !! group) → ¬ fits st group content →
  write_group_content group table content st = Ok (false, st).
Proof.
  intros [n Hn] Hnf. unfold write_group_content, getitem.
  rewrite Hn. simpl. fold (block_lines content).
  destruct (LINE_LIMIT <? n + block_lines content) eqn:Hlt; [done|].
  apply Nat.ltb_ge in Hlt. destruct Hnf. exists n. done.
Qed.

(** What a successful write has done. *)
Lemma write_group_content_true group table content st st' :
  write_group_content group table content st = Ok (true, st') →
  ∃ n body,
    group_lines st !! group = Some n ∧
    n + block_lines content ≤ LINE_LIMIT ∧
    group_contents st !! group = Some body ∧
    st' = {| group_contents :=
               <[group := body +:+ (if nonempty body
                                    then blank_line +:+ content else content)]>
                 (group_contents st);
             group_lines := <[group := n + block_lines content]> (group_lines st);
             seeds := seeds st |}.
Proof.
  unfold write_group_content, getitem.
  destruct (group_lines st !! group) as [n|]; simpl; [|done].
  fold (block_lines content).
  destruct (LINE_LIMIT <? n + block_lines content) eqn:Hlt; [done|].
  apply Nat.ltb_ge in Hlt.
  destruct (group_contents st !! group) as [body|]; simpl; [|done].
  intros [= <-]. exists n, body. done.
Qed.

Lemma write_group_content_false group table content st st' :
  write_group_content group table content st = Ok (false, st') →
  st' = st ∧ ¬ fits st group content.
Proof.
  unfold write_group_content, getitem.
  destruct (group_lines st !! group) as [n|] eqn:Hn; simpl; [|done].
  fold (block_lines content).
  destruct (LINE_LIMIT <? n + block_lines content) eqn:Hlt.
  - intros [= <-]. split; [done|]. intros (m & Hm & Hle).
    apply Nat.ltb_lt in Hlt. simplify_eq. lia.
  - destruct (group_contents st !! group); simpl; done.
Qed.

Lemma fits_placed_in group content st :
  fits st group content → keyed st → group ∈ GROUP_ORDER →
  ∃ st', placed_in group content st st'.
Proof.
  intros Hf Hk Hg. apply write_group_content_fits; [done|]. by apply Hk.
Qed.

Lemma placed_in_keyed group content st st' :
  placed_in group content st st' → keyed st → keyed st'.
Proof.
  intros (n & body & Hn & _ & Hb & ->)%write_group_content_true Hk g Hg.
  simpl. destruct (Hk g Hg) as [??].
  destruct (decide (group = g)) as [->|].
  - rewrite !lookup_insert_eq. eauto.
  - rewrite !lookup_insert_ne by done. done.
Qed.

Lemma placed_in_budget group content st st' :
  placed_in group content st st' → within_budget st → within_budget st'.
Proof.
  intros (n & body & Hn & Hle & Hb & ->)%write_group_content_true Hw g m.
  simpl. destruct (decide (group = g)) as [->|].
  - rewrite lookup_insert_eq. intros [= <-]. done.
  - rewrite lookup_insert_ne by done. apply Hw.
Qed.

Lemma placed_in_seeds group content st st' :
  placed_in group content st st' → seeds st' = seeds st.
Proof. by intros (n & body & _ & _ & _ & ->)%write_group_content_true. Qed.

(** ** The cascade loop *)

Lemma app_empty_r (s : string) : s +:+ "" = s.
Proof.
  induction s as [|c s IH]; [done|].
  change (String c (s +:+ "") = String c s). by rewrite IH.
Qed.

Lemma app_assoc_s (s1 s2 s3 : string) : (s1 +:+ s2) +:+ s3 = s1 +:+ (s2 +:+ s3).
Proof.
  induction s1 as [|c s1 IH]; [done|].
  change (String c ((s1 +:+ s2) +:+ s3) = String c (s1 +:+ (s2 +:+ s3))).
  by rewrite IH.
Qed.

Lemma place_unfold fuel table block i st :
  place (S fuel) table block i st =
  if length GROUP_ORDER <=? i then ret st
  else
    current_group ← lift (list_getitem GROUP_ORDER i);
    written ← lift (write_group_content current_group table block st);
    let '(ok, st') := written in
    if ok : bool then ret st'
    else if length GROUP_ORDER <=? i + 1 then
      raise (SystemExit (exit_message table))
    else
      next_group ← lift (list_getitem GROUP_ORDER (i + 1));
      log_append (exceeded_line current_group table next_group) ;;
      place fuel table block (i + 1) st'.
Proof. reflexivity. Qed.

Lemma logged_0 table i w : logged table i 0 w = w.
Proof. destruct w. unfold logged. simpl. by rewrite app_empty_r. Qed.

Lemma bind_lift_ok {A B} (a : A) (k : A → M B) w :
  bind (lift (Ok a)) k w = k a w.
Proof. reflexivity. Qed.

Lemma bind_ret {A B} (a : A) (k : A → M B) w : bind (ret a) k w = k a w.
Proof. reflexivity. Qed.

Lemma bind_log_append {B} line (k : () → M B) w :
  bind (log_append line) k w
  = k () {| log_file := log_file w +:+ line; output_files := output_files w |}.
Proof. reflexivity. Qed.

Lemma bind_assoc {A B C} (m : M A) (k1 : A → M B) (k2 : B → M C) w :
  bind (bind m k1) k2 w = bind m (λ a, bind (k1 a) k2) w.
Proof. unfold bind. by destruct (m w) as [[a|e] w']. Qed.

Lemma bind_ok {A B} (m : M A) (k : A → M B) w a w' :
  m w = (Ok a, w') → bind m k w = k a w'.
Proof. intros Hm. unfold bind. by rewrite Hm. Qed.

Lemma bind_raise {A B} (m : M A) (k : A → M B) w e w' :
  m w = (Raise e, w') → bind m k w = (Raise e, w').
Proof. intros Hm. unfold bind. by rewrite Hm. Qed.

(** The loop either writes the block to the first group, from position
    [i] on, that it fits, or raises [SystemExit]; every group it passes
    is logged. *)
Lemma place_spec table block : ∀ fuel i st w,
  keyed st → i < length GROUP_ORDER → length GROUP_ORDER - i ≤ fuel →
  (∃ j g st',
      i ≤ j ∧ GROUP_ORDER !! j = Some g ∧
      (∀ k gk, i ≤ k < j → GROUP_ORDER !! k = Some gk → ¬ fits st gk block) ∧
      placed_in g block st st' ∧
      place fuel table block i st w = (Ok st', logged table i (j - i) w))
  ∨ ((∀ k gk, i ≤ k → GROUP_ORDER !! k = Some gk → ¬ fits st gk block) ∧
     place fuel table block i st w
     = (Raise (SystemExit (exit_message table)),
        logged table i (length GROUP_ORDER - 1 - i) w)).
Proof.
  induction fuel as [|fuel IH]; intros i st w Hk Hi Hfuel; [lia|].
  rewrite place_unfold.
  destruct (length GROUP_ORDER <=? i) eqn:Hlen; [apply Nat.leb_le in Hlen; lia|].
  destruct (lookup_lt_is_Some_2 GROUP_ORDER i Hi) as [g Hg].
  assert (Hgin : g ∈ GROUP_ORDER) by (apply list_elem_of_lookup; eauto).
  unfold list_getitem. rewrite Hg, bind_lift_ok.
  destruct (fits_dec st g block) as [Hf|Hf].
  - destruct (fits_placed_in g block st Hf Hk Hgin) as [st' Hst'].
    left. exists i, g, st'. split_and!; [done|done| |done|].
    { intros k gk ?. lia. }
    unfold placed_in in Hst'.
    rewrite (write_group_content_table g table "" block st), Hst'.
    rewrite bind_lift_ok. replace (i - i) with 0 by lia. by rewrite logged_0.
  - rewrite (write_group_content_full g table block st); [|by apply Hk|done].
    rewrite bind_lift_ok.
    destruct (length GROUP_ORDER <=? i + 1) eqn:Hlast.
    + apply Nat.leb_le in Hlast. right. split.
      * intros k gk Hle Hgk. assert (k = i) as ->.
        { apply lookup_lt_Some in Hgk. lia. }
        by simplify_eq.
      * replace (length GROUP_ORDER - 1 - i) with 0 by lia.
        by rewrite logged_0.
    + apply Nat.leb_gt in Hlast.
      destruct (lookup_lt_is_Some_2 GROUP_ORDER (i + 1) Hlast) as [g' Hg'].
      rewrite Hg', bind_lift_ok, bind_log_append.
      set (w1 := {| log_file := log_file w +:+ exceeded_line g table g';
                    output_files := output_files w |}).
      assert (Hlog : ∀ n, logged table (i + 1) n w1 = logged table i (S n) w).
      { intros n. unfold logged, w1. simpl. rewrite Hg, Hg'. simpl.
        by rewrite app_assoc_s. }
      destruct (IH (i + 1) st w1 Hk Hlast) as
        [(j & gj & st' & Hj & Hgj & Hnone & Hp & ->)|[Hnone ->]]; [lia|..].
      * left. exists j, gj, st'. split_and!; [lia|done| |done|].
        { intros k gk Hrange Hgk. destruct (decide (k = i)) as [->|].
          - by simplify_eq.
          - apply (Hnone k); [lia|done]. }
        rewrite Hlog. do 2 f_equal. lia.
      * right. split.
        { intros k gk Hle Hgk. destruct (decide (k = i)) as [->|].
          - by simplify_eq.
          - apply (Hnone k); [lia|done]. }
        rewrite Hlog. do 2 f_equal. lia.
Qed.

(** ** [assign_group] *)

Lemma assign_group_in_cases pools table :
  (∃ pools1 g pool pools2,
      pools = pools1 ++ (g, pool) :: pools2 ∧ table ∈ pool ∧
      (∀ g' pool', (g', pool') ∈ pools1 → table ∉ pool') ∧
      assign_group_in pools table = g)
  ∨ ((∀ g' pool', (g', pool') ∈ pools → table ∉ pool') ∧
     assign_group_in pools table = "misc").
Proof.
  induction pools as [|[g pool] pools IH]; simpl.
  - right. split; [|done]. intros g' pool' ?%elem_of_nil. done.
  - case_decide as Hin.
    + left. exists [], g, pool, pools. split_and!; [done|done| |done].
      intros g' pool' ?%elem_of_nil. done.
    + destruct IH as [(pools1 & g1 & pool1 & pools2 & -> & ? & Hbefore & ?)|[Hnone ?]].
      * left. exists ((g, pool) :: pools1), g1, pool1, pools2.
        split_and!; [done|done| |done].
        intros g' pool' [[= -> ->]|?]%elem_of_cons; [done|by eapply Hbefore].
      * right. split; [|done].
        intros g' pool' [[= -> ->]|?]%elem_of_cons; [done|by eapply Hnone].
Qed.

Lemma GROUPS_names : GROUPS.*1 = GROUP_ORDER.
Proof. reflexivity. Qed.

Lemma assign_group_in_order table : assign_group table ∈ GROUP_ORDER.
Proof.
  unfold assign_group.
  destruct (assign_group_in_cases GROUPS table)
    as [(pools1 & g & pool & pools2 & HG & _ & _ & ->)|[_ ->]].
  - rewrite <- GROUPS_names, HG, fmap_app. set_solver.
  - rewrite <- GROUPS_names. set_solver.
Qed.

Lemma assign_group_index table :
  ∃ p, index (assign_group table) GROUP_ORDER = Some p ∧ p < length GROUP_ORDER.
Proof.
  destruct (index_is_Some _ _ (assign_group_in_order table)) as [p Hp].
  exists p. split; [done|]. by eapply index_lt.
Qed.

(** ** One table *)

Lemma ddl_block_of_None text :
  ddl_block_of text = None ↔ List.filter is_ddl (split_statements text) = [].
Proof. unfold ddl_block_of. destruct (List.filter _ _); naive_solver. Qed.

Lemma process_table_absent extracted table st w :
  extracted !! table = None → process_table extracted table st w = (Ok st, w).
Proof. intros Hn. unfold process_table. by rewrite Hn. Qed.

Lemma process_table_no_ddl extracted table text st w :
  extracted !! table = Some text → ddl_block_of text = None →
  process_table extracted table st w = (Ok st, w).
Proof.
  intros Ht Hn%ddl_block_of_None. unfold process_table. by rewrite Ht, Hn.
Qed.

Lemma process_table_place extracted table text block p st w :
  extracted !! table = Some text → ddl_block_of text = Some block →
  index (assign_group table) GROUP_ORDER = Some p →
  process_table extracted table st w =
  bind (place (length GROUP_ORDER) table block p st)
       (λ st', ret (collect_seeds table
                      (List.filter is_insert (split_statements text)) st')) w.
Proof.
  intros Ht Hb Hp. unfold process_table, ddl_block_of in *. rewrite Ht.
  destruct (List.filter is_ddl (split_statements text)) as [|s l]; [done|].
  injection Hb as <-. unfold group_index_of. rewrite Hp. done.
Qed.

(** The three ways an iteration of the loop of [main] can go. *)
Lemma process_table_cases extracted table st w :
  keyed st →
  (process_table extracted table st w = (Ok st, w) ∧
   (extracted !! table = None ∨
    ∃ text, extracted !! table = Some text ∧ ddl_block_of text = None))
  ∨ (∃ text block p j g st',
       extracted !! table = Some text ∧ ddl_block_of text = Some block ∧
       index (assign_group table) GROUP_ORDER = Some p ∧
       p ≤ j ∧ GROUP_ORDER !! j = Some g ∧
       (∀ k gk, p ≤ k < j → GROUP_ORDER !! k = Some gk → ¬ fits st gk block) ∧
       placed_in g block st st' ∧
       process_table extracted table st w
       = (Ok (collect_seeds table
                (List.filter is_insert (split_statements text)) st'),
          logged table p (j - p) w))
  ∨ (unplaceable extracted table st ∧
     ∃ p, index (assign_group table) GROUP_ORDER = Some p ∧
          process_table extracted table st w
          = (Raise (SystemExit (exit_message table)),
             logged table p (length GROUP_ORDER - 1 - p) w)).
Proof.
  intros Hk. destruct (extracted !! table) as [text|] eqn:Ht.
  2: { left. split; [by apply process_table_absent|by left]. }
  destruct (ddl_block_of text) as [block|] eqn:Hb.
  2: { left. split; [by eapply process_table_no_ddl|right; eauto]. }
  destruct (assign_group_index table) as (p & Hp & Hlt).
  rewrite (process_table_place _ _ _ _ _ _ _ Ht Hb Hp).
  destruct (place_spec table block (length GROUP_ORDER) p st w Hk Hlt)
    as [(j & g & st' & ? & ? & ? & ? & Hpl)|[Hnone Hpl]]; [lia|..].
  - right; left. exists text, block, p, j, g, st'.
    split_and!; try done. by rewrite (bind_ok _ _ _ _ _ Hpl).
  - right; right. split.
    + exists text, block, p. done.
    + exists p. split; [done|]. by rewrite (bind_raise _ _ _ _ _ Hpl).
Qed.

(** ** Statements and blocks *)

Lemma startswith_cons s c p :
  startswith s (String c p) = true → ∃ s', s = String c s'.
Proof.
  destruct s as [|a s]; [done|]. unfold startswith.
  change (String.prefix (String c p) (String a s))
    with (if ascii_dec c a then String.prefix p s else false).
  destruct (ascii_dec c a) as [->|]; [eauto|done].
Qed.

Lemma is_insert_not_ddl s : is_insert s = true → is_ddl s = false.
Proof.
  unfold is_insert, is_ddl. intros [x Hx]%startswith_cons.
  destruct (startswith (upper (lstrip s)) "CREATE TABLE") eqn:Hc; [|done].
  apply startswith_cons in Hc as [y Hy]. congruence.
Qed.

Lemma is_ddl_not_insert s : is_ddl s = true → is_insert s = false.
Proof.
  intros Hd. destruct (is_insert s) eqn:Hi; [|done].
  apply is_insert_not_ddl in Hi. congruence.
Qed.

Lemma structural_nonempty extracted s : structural extracted s → s ≠ "".
Proof. intros [Hd _] ->. done. Qed.

Lemma join_cons sep x l : l ≠ [] → join sep (x :: l) = x +:+ sep +:+ join sep l.
Proof. destruct l; done. Qed.

Lemma join_app sep l1 l2 :
  l1 ≠ [] → l2 ≠ [] →
  join sep (l1 ++ l2) = join sep l1 +:+ sep +:+ join sep l2.
Proof.
  intros H1 H2. induction l1 as [|x l1 IH]; [done|].
  destruct l1 as [|y l1].
  - change ([x] ++ l2) with (x :: l2). change (join sep [x]) with x.
    by rewrite join_cons.
  - rewrite <- app_comm_cons, !join_cons by done.
    rewrite IH by done. by rewrite !app_assoc_s.
Qed.

Lemma join_empty sep l :
  Forall (λ s, s ≠ "") l → join sep l = "" → l = [].
Proof.
  destruct l as [|x l]; [done|]. intros [Hx _]%Forall_cons.
  destruct l.
  - simpl. done.
  - rewrite join_cons by done. destruct x; done.
Qed.

Lemma nonempty_false s : nonempty s = false → s = "".
Proof. by destruct s. Qed.

Lemma filter_is_ddl_structural extracted table text :
  extracted !! table = Some text →
  Forall (structural extracted) (List.filter is_ddl (split_statements text)).
Proof.
  intros Ht. apply Forall_forall. intros s [Hin Hd]%list_elem_of_In%filter_In.
  split_and!; [done|by apply is_ddl_not_insert|].
  exists table, text. split; [done|by apply list_elem_of_In].
Qed.

Lemma ddl_block_structural extracted table text block :
  extracted !! table = Some text → ddl_block_of text = Some block →
  structural_text extracted block ∧ block ≠ "".
Proof.
  intros Ht. unfold ddl_block_of.
  pose proof (filter_is_ddl_structural extracted table text Ht) as Hall.
  destruct (List.filter is_ddl (split_statements text)) as [|s l] eqn:Hf; [done|].
  intros [= <-]. split; [by exists (s :: l)|].
  intros Hempty. apply (join_empty blank_line (s :: l)) in Hempty; [done|].
  eapply Forall_impl; [exact Hall|]. apply structural_nonempty.
Qed.

(** Appending a block to the text of a group, as [write_group_content]
    does. *)
Lemma structural_text_append extracted body block :
  structural_text extracted body → structural_text extracted block →
  block ≠ "" →
  structural_text extracted
    (body +:+ (if nonempty body then blank_line +:+ block else block)).
Proof.
  intros (l1 & -> & H1) (l2 & -> & H2) Hne.
  destruct (nonempty (join blank_line l1)) eqn:Hb.
  - exists (l1 ++ l2). split; [|by apply Forall_app].
    rewrite join_app; [done|by intros ->|by intros ->].
  - apply nonempty_false in Hb. rewrite Hb. by exists l2.
Qed.

Lemma collect_seeds_seeds table inserts st :
  seeds (collect_seeds table inserts st)
  = if decide (table ∈ ALLOWED_SEED_TABLES) then seeds st ++ inserts
    else seeds st.
Proof.
  unfold collect_seeds. simpl. generalize (seeds st) as acc.
  induction inserts as [|s inserts IH]; intros acc; simpl.
  - case_decide; [by rewrite app_nil_r|done].
  - rewrite IH. unfold append_seed. case_decide; [|done].
    by rewrite <- app_assoc.
Qed.

(** ** The loop over the order *)

Lemma process_table_sound extracted table st st' w w' :
  sound extracted st →
  process_table extracted table st w = (Ok st', w') → sound extracted st'.
Proof.
  intros [Hk Hb Hs Hc] Hp.
  destruct (process_table_cases extracted table st w Hk)
    as [[Heq _]|[(text & block & p & j & g & st1 & Ht & Hblock & _ & _ & _ & _
                  & Hpl & Heq)|[_ (p & _ & Heq)]]];
    rewrite Heq in Hp; simplify_eq; [done|].
  pose proof (placed_in_seeds _ _ _ _ Hpl) as Hseeds.
  split.
  - change (keyed st1). by eapply placed_in_keyed.
  - change (within_budget st1). by eapply placed_in_budget.
  - rewrite collect_seeds_seeds, Hseeds. case_decide as Hal; [|done].
    apply Forall_app. split; [done|].
    apply Forall_forall. intros s [Hin Hi]%list_elem_of_In%filter_In.
    split_and!; [done|by apply is_insert_not_ddl|].
    exists table, text. split_and!; [done|done|by apply list_elem_of_In].
  - simpl. apply write_group_content_true in Hpl
      as (n & body & _ & _ & Hbody & ->). simpl.
    intros g' body'. destruct (decide (g = g')) as [->|].
    + rewrite lookup_insert_eq. intros [= <-].
      destruct (ddl_block_structural _ _ _ _ Ht Hblock).
      apply structural_text_append; eauto.
    + rewrite lookup_insert_ne by done. apply Hc.
Qed.

Lemma for_tables_app extracted o1 o2 st w :
  for_tables extracted (o1 ++ o2) st w
  = bind (for_tables extracted o1 st) (for_tables extracted o2) w.
Proof.
  revert st w. induction o1 as [|t o1 IH]; intros st w; [done|].
  change (bind (process_table extracted t st)
               (for_tables extracted (o1 ++ o2)) w
          = bind (bind (process_table extracted t st) (for_tables extracted o1))
                 (for_tables extracted o2) w).
  rewrite bind_assoc.
  destruct (process_table extracted t st w) as [[st1|e] w1] eqn:Hp.
  - rewrite !(bind_ok _ _ _ _ _ Hp). apply IH.
  - by rewrite !(bind_raise _ _ _ _ _ Hp).
Qed.

Lemma for_tables_sound extracted : ∀ order st st' w w',
  sound extracted st →
  for_tables extracted order st w = (Ok st', w') → sound extracted st'.
Proof.
  induction order as [|t order IH]; intros st st' w w' Hs; simpl.
  - by intros [= <- <-].
  - unfold bind. destruct (process_table extracted t st w) as [[st1|e] w1] eqn:Hp;
      [|done].
    intros Hrest. eapply IH; [|done]. by eapply process_table_sound.
Qed.

Lemma initial_groups_lookup g :
  g ∈ GROUP_ORDER →
  group_lines initial_groups !! g = Some 0 ∧
  group_contents initial_groups !! g = Some "".
Proof.
  unfold GROUP_ORDER. intros Hg.
  repeat (apply elem_of_cons in Hg as [->|Hg]); [by vm_compute..|].
  by apply elem_of_nil in Hg.
Qed.

Lemma initial_groups_lines g n :
  group_lines initial_groups !! g = Some n → n = 0.
Proof.
  change (group_lines initial_groups)
    with (list_to_map ((λ grp, (grp, 0)) <$> GROUP_ORDER) : gmap string nat).
  intros Hn. apply elem_of_list_to_map_2, list_elem_of_fmap in Hn
    as (g' & [= -> ->] & _). done.
Qed.

Lemma initial_groups_contents g body :
  group_contents initial_groups !! g = Some body → body = "".
Proof.
  change (group_contents initial_groups)
    with (list_to_map ((λ grp, (grp, "")) <$> GROUP_ORDER) : gmap string string).
  intros Hn. apply elem_of_list_to_map_2, list_elem_of_fmap in Hn
    as (g' & [= -> ->] & _). done.
Qed.

Lemma initial_groups_sound extracted : sound extracted initial_groups.
Proof.
  split.
  - intros g [-> ->]%initial_groups_lookup. eauto.
  - intros g n ->%initial_groups_lines. unfold LINE_LIMIT. lia.
  - constructor.
  - intros g body ->%initial_groups_contents. by exists [].
Qed.

Lemma unplaceable_not_placed extracted table st st' w w' :
  keyed st → unplaceable extracted table st →
  process_table extracted table st w ≠ (Ok st', w').
Proof.
  intros Hk (text & block & p & Ht & Hb & Hp & Hnone) Hok.
  destruct (process_table_cases extracted table st w Hk)
    as [[_ [?|(text' & ? & ?)]]
       |[(text' & block' & p' & j & g & st1 & ? & ? & ? & ? & Hg & _ & Hpl & _)
        |[_ (p' & _ & Heq)]]]; simplify_eq.
  - apply (Hnone j g); [done|done|].
    apply write_group_content_true in Hpl as (n & body & ? & ? & _).
    by exists n.
  - congruence.
Qed.

Lemma for_tables_cons extracted t order st w :
  for_tables extracted (t :: order) st w
  = bind (process_table extracted t st) (for_tables extracted order) w.
Proof. reflexivity. Qed.

(** The loop stops at the first table that fits no group from its
    preferred one on, and only there. *)
Lemma for_tables_outcome extracted : ∀ order st w,
  sound extracted st →
  (∃ st' w', for_tables extracted order st w = (Ok st', w'))
  ∨ (∃ o1 t o2 st1 w1 w',
       order = o1 ++ t :: o2 ∧
       for_tables extracted o1 st w = (Ok st1, w1) ∧
       unplaceable extracted t st1 ∧
       for_tables extracted order st w
       = (Raise (SystemExit (exit_message t)), w')).
Proof.
  induction order as [|t order IH]; intros st w Hs.
  - left. by exists st, w.
  - rewrite for_tables_cons.
    destruct (process_table_cases extracted t st w (sound_keyed _ _ Hs))
      as [[Heq _]|[(text & block & p & j & g & st1 & _ & _ & _ & _ & _ & _ & _
                    & Heq)|[Hun (p & _ & Heq)]]].
    + rewrite (bind_ok _ _ _ _ _ Heq).
      destruct (IH st w Hs) as [?|(o1 & t' & o2 & st1 & w1 & w' & -> & H1 & ? & H2)];
        [by left|].
      right. exists (t :: o1), t', o2, st1, w1, w'.
      rewrite for_tables_cons, (bind_ok _ _ _ _ _ Heq). done.
    + rewrite (bind_ok _ _ _ _ _ Heq).
      pose proof (process_table_sound _ _ _ _ _ _ Hs Heq) as Hs1.
      destruct (IH _ (logged t p (j - p) w) Hs1)
        as [?|(o1 & t' & o2 & st2 & w1 & w' & -> & H1 & ? & H2)]; [by left|].
      right. exists (t :: o1), t', o2, st2, w1, w'.
      rewrite for_tables_cons, (bind_ok _ _ _ _ _ Heq). done.
    + right. exists [], t, order, st, w. eexists.
      split_and!; [done|done|done|]. by rewrite (bind_raise _ _ _ _ _ Heq).
Qed.

Lemma for_tables_abort extracted o1 t o2 st st1 w w1 :
  sound extracted st →
  for_tables extracted o1 st w = (Ok st1, w1) →
  unplaceable extracted t st1 →
  ∃ w', for_tables extracted (o1 ++ t :: o2) st w
        = (Raise (SystemExit (exit_message t)), w').
Proof.
  intros Hs H1 Hun. rewrite for_tables_app, (bind_ok _ _ _ _ _ H1).
  rewrite for_tables_cons.
  pose proof (for_tables_sound _ _ _ _ _ _ Hs H1) as Hs1.
  destruct (process_table_cases extracted t st1 w1 (sound_keyed _ _ Hs1))
    as [[Heq _]|[(text & block & p & j & g & st2 & _ & _ & _ & _ & _ & _ & _
                  & Heq)|[_ (p & _ & Heq)]]].
  - by apply unplaceable_not_placed in Heq; [|apply Hs1|].
  - by apply unplaceable_not_placed in Heq; [|apply Hs1|].
  - eexists. by rewrite (bind_raise _ _ _ _ _ Heq).
Qed.

(** The loop appends to the log and leaves the output files alone. *)
Lemma process_table_outputs extracted table st w :
  keyed st →
  output_files (process_table extracted table st w).2 = output_files w.
Proof.
  intros Hk. destruct (process_table_cases extracted table st w Hk)
    as [[-> _]|[(text & block & p & j & g & st1 & _ & _ & _ & _ & _ & _ & _
                 & ->)|[_ (p & _ & ->)]]]; done.
Qed.

Lemma for_tables_outputs extracted : ∀ order st w,
  sound extracted st →
  output_files (for_tables extracted order st w).2 = output_files w.
Proof.
  induction order as [|t order IH]; intros st w Hs; [done|].
  rewrite for_tables_cons.
  pose proof (process_table_outputs extracted t st w (sound_keyed _ _ Hs)) as Ho.
  destruct (process_table extracted t st w) as [[st1|e] w1] eqn:Hp.
  - rewrite (bind_ok _ _ _ _ _ Hp). rewrite IH; [done|].
    by eapply process_table_sound.
  - by rewrite (bind_raise _ _ _ _ _ Hp).
Qed.

(** ** Splitting a text that the script has assembled *)

Lemma app_cons c (s t : string) : String c s +:+ t = String c (s +:+ t).
Proof. reflexivity. Qed.

Lemma lstrip_app_blank x y : blank x → lstrip (x +:+ y) = lstrip y.
Proof.
  unfold blank. induction x as [|c x IH]; [done|]. rewrite app_cons.
  simpl. destruct (isspace c); [done|discriminate].
Qed.

Lemma lstrip_app_nonblank x y :
  lstrip x ≠ "" → lstrip (x +:+ y) = lstrip x +:+ y.
Proof.
  induction x as [|c x IH]; [done|]. rewrite app_cons. simpl.
  destruct (isspace c); [done|]. done.
Qed.

Lemma headed_app_l H x y : headed H x → headed H (x +:+ y).
Proof.
  unfold headed. intros Hx. rewrite lstrip_app_nonblank.
  - destruct (lstrip x); [done|]. by rewrite app_cons.
  - by destruct (lstrip x).
Qed.

Lemma headed_app_blank H x y : blank x → headed H y → headed H (x +:+ y).
Proof. unfold headed. intros Hx Hy. by rewrite lstrip_app_blank. Qed.

Lemma blank_app x y : blank x → blank y → blank (x +:+ y).
Proof. unfold blank. intros Hx Hy. by rewrite lstrip_app_blank. Qed.

Lemma lstrip_head x c r : lstrip x = String c r → isspace c = false.
Proof.
  induction x as [|a x IH]; [done|]. simpl.
  destruct (isspace a) eqn:Ha; [done|]. by intros [= <- _].
Qed.

Lemma lstrip_idemp x : lstrip (lstrip x) = lstrip x.
Proof.
  induction x as [|a x IH]; [done|]. simpl.
  destruct (isspace a) eqn:Ha; [done|]. simpl. by rewrite Ha.
Qed.

Lemma rstrip_head c r : isspace c = false → ∃ r', rstrip (String c r) = String c r'.
Proof. intros Hc. simpl. rewrite Hc. destruct (rstrip r); eauto. Qed.

Lemma headed_strip H x : headed H x → headed H (strip x) ∧ strip x ≠ "".
Proof.
  unfold headed, strip. destruct (lstrip x) as [|c r] eqn:Hx; [done|].
  intros Hc. destruct (rstrip_head c r (lstrip_head _ _ _ Hx)) as [r' ->].
  simpl. rewrite (lstrip_head _ _ _ Hx). done.
Qed.

Lemma blank_strip x : blank x → strip x = "".
Proof. unfold blank, strip. by intros ->. Qed.

Lemma nonempty_true s : s ≠ "" → nonempty s = true.
Proof. by destruct s. Qed.

Lemma split_loop_app t1 : ∀ t2 b st,
  split_loop (t1 +:+ t2) b st
  = split_loop t2 (split_loop t1 b st).2 (split_loop t1 b st).1.
Proof.
  induction t1 as [|c t1 IH]; intros t2 b st; [done|].
  rewrite app_cons. simpl. case_decide; apply IH.
Qed.

Lemma split_loop_no_semicolon t : ∀ b st,
  has_semicolon t = false → split_loop t b st = (st, b +:+ t).
Proof.
  induction t as [|c t IH]; intros b st; simpl.
  - by rewrite app_empty_r.
  - case_decide; [done|]. intros Ht. rewrite IH by done.
    by rewrite app_assoc_s.
Qed.

Lemma split_loop_semicolon b st :
  split_loop ";" b st
  = (if nonempty (strip (b +:+ ";")) then st ++ [strip (b +:+ ";")] else st, "").
Proof. reflexivity. Qed.

(** One more piece of text goes through the loop of [split_statements]:
    statements that begin as [H] asks stay so, and the buffer is blank or
    begins as [H] asks. *)
Lemma split_loop_piece H piece b st :
  one_statement piece → blank piece ∨ headed H piece →
  blank b ∨ headed H b → Forall (headed H) st →
  Forall (headed H) (split_loop piece b st).1 ∧
  (blank (split_loop piece b st).2 ∨ headed H (split_loop piece b st).2).
Proof.
  intros (u & Hu & [->| ->]) Hp Hb Hst.
  - rewrite split_loop_no_semicolon by done. cbn [fst snd]. split; [done|].
    destruct Hb as [Hb|Hb], Hp as [Hp|Hp];
      eauto using blank_app, headed_app_blank, headed_app_l.
  - rewrite split_loop_app, (split_loop_no_semicolon u) by done.
    cbn [fst snd]. rewrite split_loop_semicolon. cbn [fst snd].
    split; [|by left].
    assert (Hhead : headed H (b +:+ u +:+ ";")).
    { destruct Hp as [Hp|Hp].
      - exfalso. revert Hp. unfold blank. clear.
        induction u as [|c u IH]; [done|]. rewrite app_cons. simpl.
        destruct (isspace c); [done|discriminate].
      - destruct Hb as [Hb|Hb]; [by apply headed_app_blank|by apply headed_app_l]. }
    rewrite <- app_assoc_s in Hhead.
    destruct (headed_strip H _ Hhead) as [Hs Hne].
    rewrite (nonempty_true _ Hne). apply Forall_app. split; [done|].
    by constructor.
Qed.

Lemma split_loop_pieces H : ∀ pieces b st,
  Forall (λ p, one_statement p ∧ (blank p ∨ headed H p)) pieces →
  blank b ∨ headed H b → Forall (headed H) st →
  Forall (headed H) (split_loop (String.concat "" pieces) b st).1 ∧
  (blank (split_loop (String.concat "" pieces) b st).2 ∨
   headed H (split_loop (String.concat "" pieces) b st).2).
Proof.
  induction pieces as [|p pieces IH]; intros b st Hps Hb Hst; [done|].
  apply Forall_cons in Hps as [[Hone Hp] Hps].
  assert (String.concat "" (p :: pieces) = p +:+ String.concat "" pieces) as ->.
  { destruct pieces; [by rewrite app_empty_r|done]. }
  rewrite split_loop_app.
  destruct (split_loop_piece H p b st Hone Hp Hb Hst) as [Hst1 Hb1].
  by apply IH.
Qed.

(** Every statement that [split_statements] finds in a text assembled
    from such pieces begins as [H] asks. *)
Lemma split_statements_pieces H pieces :
  Forall (λ p, one_statement p ∧ (blank p ∨ headed H p)) pieces →
  Forall (headed H) (split_statements (String.concat "" pieces)).
Proof.
  intros Hps. unfold split_statements.
  destruct (split_loop_pieces H pieces "" [] Hps) as [Hst Hb];
    [by left|done|].
  destruct (split_loop (String.concat "" pieces) "" []) as [st b]. simpl in *.
  destruct (nonempty b); [|done].
  destruct Hb as [Hb|Hb].
  - by rewrite (blank_strip _ Hb).
  - destruct (headed_strip H _ Hb) as [Hs Hne].
    rewrite (nonempty_true _ Hne). apply Forall_app. split; [done|].
    by constructor.
Qed.

(** The statements that [split_statements] returns end at their first
    terminator. *)
Lemma has_semicolon_lstrip x : has_semicolon x = false → has_semicolon (lstrip x) = false.
Proof.
  induction x as [|c x IH]; [done|]. simpl. case_decide; [done|].
  intros Hx. destruct (isspace c); [by apply IH|]. simpl.
  by rewrite decide_False.
Qed.

Lemma has_semicolon_rstrip x : has_semicolon x = false → has_semicolon (rstrip x) = false.
Proof.
  induction x as [|c x IH]; [done|]. simpl. case_decide as Hc; [done|].
  intros Hx. specialize (IH Hx). destruct (rstrip x) as [|a r].
  - destruct (isspace c); [done|]. simpl. by rewrite decide_False.
  - simpl. rewrite decide_False by done. done.
Qed.

Lemma rstrip_semicolon x : rstrip (x +:+ ";") = x +:+ ";".
Proof.
  induction x as [|c x IH]; [done|]. rewrite app_cons. simpl. rewrite IH.
  by destruct x.
Qed.

Lemma strip_semicolon b :
  has_semicolon b = false → one_statement (strip (b +:+ ";")).
Proof.
  intros Hb. exists (lstrip b). split; [by apply has_semicolon_lstrip|].
  right. unfold strip. destruct (lstrip b) as [|c r] eqn:Hl.
  - rewrite lstrip_app_blank by done. done.
  - rewrite lstrip_app_nonblank by (by rewrite Hl). rewrite Hl.
    apply rstrip_semicolon.
Qed.

Lemma split_loop_one_statement text : ∀ b st,
  has_semicolon b = false → Forall one_statement st →
  Forall one_statement (split_loop text b st).1 ∧
  has_semicolon (split_loop text b st).2 = false.
Proof.
  induction text as [|c text IH]; intros b st Hb Hst; [done|]. simpl.
  case_decide as Hc.
  - subst. apply IH; [done|].
    destruct (nonempty _); [|done]. apply Forall_app. split; [done|].
    constructor; [|done]. by apply strip_semicolon.
  - apply IH; [|done]. clear IH. induction b as [|a b IHb].
    + simpl. by rewrite decide_False.
    + rewrite app_cons. simpl in *. case_decide; [done|]. by apply IHb.
Qed.

Lemma split_statements_one_statement text s :
  s ∈ split_statements text → one_statement s.
Proof.
  unfold split_statements.
  destruct (split_loop_one_statement text "" []) as [Hst Hb]; [done|done|].
  destruct (split_loop text "" []) as [st b]. simpl in *.
  assert (Hall : Forall one_statement
            (if nonempty b then
               if nonempty (strip b) then st ++ [strip b] else st
             else st)).
  { destruct (nonempty b); [|done]. destruct (nonempty (strip b)); [|done].
    apply Forall_app. split; [done|]. constructor; [|done].
    exists (strip b). split; [|by left].
    by apply has_semicolon_rstrip, has_semicolon_lstrip. }
  intros Hin. by eapply Forall_forall in Hall.
Qed.

Lemma concat_interleave sep parts :
  String.concat "" (interleave sep parts) = join sep parts.
Proof.
  induction parts as [|x parts IH]; [done|].
  destruct parts as [|y parts]; [done|].
  change (interleave sep (x :: y :: parts))
    with (x :: sep :: interleave sep (y :: parts)).
  rewrite (join_cons sep x (y :: parts)) by done. rewrite <- IH.
  change (String.concat "" (x :: sep :: interleave sep (y :: parts)))
    with (x +:+ "" +:+ String.concat "" (sep :: interleave sep (y :: parts))).
  change (interleave sep (y :: parts))
    with (match parts with [] => [y] | _ => y :: sep :: interleave sep parts end).
  by destruct parts.
Qed.

Lemma Forall_interleave (P : string → Prop) sep parts :
  P sep → Forall P parts → Forall P (interleave sep parts).
Proof.
  intros Hsep. induction 1 as [|x parts Hx Hparts IH]; [done|].
  destruct parts as [|y parts]; [by constructor|].
  change (interleave sep (x :: y :: parts))
    with (x :: sep :: interleave sep (y :: parts)).
  by repeat constructor.
Qed.

Lemma blank_line_piece H : one_statement blank_line ∧ (blank blank_line ∨ headed H blank_line).
Proof. split; [exists blank_line; by split; [|left]|by left]. Qed.

Lemma is_ddl_headed s : is_ddl s = true → headed create_head s.
Proof.
  unfold is_ddl, headed. intros [x Hx]%startswith_cons.
  destruct (lstrip s) as [|c r]; [done|]. simpl in Hx.
  injection Hx as Hc _. unfold create_head. by apply bool_decide_eq_true.
Qed.

Lemma is_insert_headed s : is_insert s = true → headed seed_head s.
Proof.
  unfold is_insert, headed. intros [x Hx]%startswith_cons.
  destruct (lstrip s) as [|c r]; [done|]. simpl in Hx.
  injection Hx as Hc _. unfold seed_head.
  by rewrite (bool_decide_eq_true_2 _ Hc).
Qed.

Lemma headed_create_not_insert s : headed create_head s → is_insert s = false.
Proof.
  unfold headed, is_insert. destruct (lstrip s) as [|c r]; [done|].
  intros Hc%bool_decide_eq_true.
  change (upper (String c r)) with (String (upper_char c) (upper r)).
  rewrite Hc.
  destruct (startswith (String "C" (upper r)) "INSERT INTO") eqn:Hs; [|done].
  by apply startswith_cons in Hs as [x [=]].
Qed.

Lemma headed_seed_not_ddl s : headed seed_head s → is_ddl s = false.
Proof.
  unfold headed, is_ddl. destruct (lstrip s) as [|c r]; [done|].
  unfold seed_head. intros Hc.
  change (upper (String c r)) with (String (upper_char c) (upper r)).
  destruct (startswith (String (upper_char c) (upper r)) "CREATE TABLE")
    eqn:Hs; [|done].
  apply startswith_cons in Hs as [x [= Hx _]].
  apply orb_true_iff in Hc as [Hc%bool_decide_eq_true|Hc%bool_decide_eq_true].
  - congruence.
  - subst c. done.
Qed.

(** Split again, the text of a group holds no insertion statement. *)
Lemma structural_text_split extracted body s :
  structural_text extracted body → s ∈ split_statements body →
  is_insert s = false.
Proof.
  intros (stmts & -> & Hall) Hin. apply headed_create_not_insert.
  rewrite <- concat_interleave in Hin.
  eapply Forall_forall in Hin; [done|].
  apply split_statements_pieces, Forall_interleave; [apply blank_line_piece|].
  eapply Forall_impl; [exact Hall|]. intros x (Hd & _ & table & text & _ & Hx).
  split; [by eapply split_statements_one_statement|].
  right. by apply is_ddl_headed.
Qed.

(** Split again, the text of the seed file holds no structural
    statement. *)
Lemma seed_text_split extracted stmts s :
  Forall (seed_statement extracted) stmts →
  s ∈ split_statements (seed_header +:+ join blank_line stmts) →
  is_ddl s = false.
Proof.
  intros Hall Hin. apply headed_seed_not_ddl.
  assert (Hpieces : seed_header +:+ join blank_line stmts
                    = String.concat "" (seed_header :: interleave blank_line stmts)).
  { rewrite <- concat_interleave.
    destruct (interleave blank_line stmts); [by rewrite app_empty_r|done]. }
  rewrite Hpieces in Hin.
  eapply Forall_forall in Hin; [done|].
  apply split_statements_pieces. constructor.
  - split; [exists seed_header; by split; [|left]|by right].
  - apply Forall_interleave; [apply blank_line_piece|].
    eapply Forall_impl; [exact Hall|].
    intros x (Hi & _ & table & text & _ & _ & Hx).
    split; [by eapply split_statements_one_statement|].
    right. by apply is_insert_headed.
Qed.

Lemma group_file_text_split extracted g path body s :
  (g, path) ∈ OUTPUT_FILES → g ≠ "seed" →
  structural_text extracted body →
  s ∈ split_statements (group_file_text g body) → is_insert s = false.
Proof.
  intros Hg Hne Hbody. unfold group_file_text.
  destruct (nonempty body) eqn:Hb; [by eapply structural_text_split|].
  unfold OUTPUT_FILES in Hg.
  repeat (apply elem_of_cons in Hg as [[= -> ->]|Hg]);
    [..|done|by apply elem_of_nil in Hg];
    vm_compute; intros Hin;
    repeat (apply elem_of_cons in Hin as [->|Hin]; [done|]);
    by apply elem_of_nil in Hin.
Qed.

(** ** Writing the files *)

Lemma write_outputs_spec st w :
  keyed st →
  ∃ c p s m,
    group_contents st !! "core" = Some c ∧
    group_contents st !! "project" = Some p ∧
    group_contents st !! "support" = Some s ∧
    group_contents st !! "misc" = Some m ∧
    write_outputs OUTPUT_FILES st w = (Ok (), written st c p s m w).
Proof.
  intros Hk.
  destruct (Hk "core") as [_ [c Hc]]; [set_solver|].
  destruct (Hk "project") as [_ [p Hp]]; [set_solver|].
  destruct (Hk "support") as [_ [s Hs]]; [set_solver|].
  destruct (Hk "misc") as [_ [m Hm]]; [set_solver|].
  exists c, p, s, m. split_and!; try done.
  unfold OUTPUT_FILES, write_outputs, getitem.
  rewrite Hc, Hp, Hs, Hm.
  unfold written, group_file_text, bind, lift, ret, write_text.
  destruct (nonempty c), (nonempty p), (nonempty s), (nonempty m); reflexivity.
Qed.

(** ** Independence of the files on disk *)

Lemma appends_ret {A} (a : A) : appends (ret a) (Ok a) "".
Proof. intros [l o]. unfold ret. simpl. by rewrite app_empty_r. Qed.

Lemma appends_raise {A} e : appends (raise (A:=A) e) (Raise e) "".
Proof. intros [l o]. unfold raise. simpl. by rewrite app_empty_r. Qed.

Lemma appends_lift {A} (r : result A) : appends (lift r) r "".
Proof. intros [l o]. unfold lift. simpl. by rewrite app_empty_r. Qed.

Lemma appends_log line : appends (log_append line) (Ok ()) line.
Proof. by intros w. Qed.

Lemma appends_bind_ok {A B} (m : M A) (k : A → M B) a d1 r d2 :
  appends m (Ok a) d1 → appends (k a) r d2 → appends (bind m k) r (d1 +:+ d2).
Proof.
  intros Hm Hk w. unfold bind. rewrite Hm, Hk. simpl. by rewrite app_assoc_s.
Qed.

Lemma appends_bind_raise {A B} (m : M A) (k : A → M B) e d :
  appends m (Raise e) d → appends (bind m k) (Raise e) d.
Proof. intros Hm w. unfold bind. by rewrite Hm. Qed.

Lemma appends_bind {A B} (m : M A) (k : A → M B) :
  (∃ r d, appends m r d) → (∀ a, ∃ r d, appends (k a) r d) →
  ∃ r d, appends (bind m k) r d.
Proof.
  intros ([a|e] & d1 & Hm) Hk.
  - destruct (Hk a) as (r & d2 & Hka). eauto using appends_bind_ok.
  - eauto using appends_bind_raise.
Qed.

Lemma place_appends table block : ∀ fuel i st,
  ∃ r d, appends (place fuel table block i st) r d.
Proof.
  induction fuel as [|fuel IH]; intros i st.
  - unfold place. destruct (length GROUP_ORDER <=? i);
      eauto using appends_ret, appends_raise.
  - rewrite place_unfold. destruct (length GROUP_ORDER <=? i);
      [eauto using appends_ret|].
    apply appends_bind; [eauto using appends_lift|]. intros g.
    apply appends_bind; [eauto using appends_lift|]. intros [[] st'].
    + eauto using appends_ret.
    + destruct (length GROUP_ORDER <=? i + 1); [eauto using appends_raise|].
      apply appends_bind; [eauto using appends_lift|]. intros g'.
      apply appends_bind; [eauto using appends_log|]. intros _. apply IH.
Qed.

Lemma process_table_appends extracted table st :
  ∃ r d, appends (process_table extracted table st) r d.
Proof.
  unfold process_table. destruct (extracted !! table) as [text|];
    [|eauto using appends_ret].
  destruct (List.filter is_ddl (split_statements text));
    [eauto using appends_ret|].
  apply appends_bind; [eauto using appends_lift|]. intros p.
  apply appends_bind; [apply place_appends|]. intros st'.
  eauto using appends_ret.
Qed.

Lemma for_tables_appends extracted : ∀ order st,
  ∃ r d, appends (for_tables extracted order st) r d.
Proof.
  induction order as [|t order IH]; intros st; [eauto using appends_ret|].
  apply appends_bind; [apply process_table_appends|]. intros st'. apply IH.
Qed.

(** ** [main] and the script *)

Lemma prepare_group_files_spec w : prepare_group_files w = (Ok (), prepared w).
Proof. reflexivity. Qed.

Lemma main_ok extracted order st delta :
  appends (for_tables extracted order initial_groups) (Ok st) delta →
  ∃ c p s m,
    group_contents st !! "core" = Some c ∧
    group_contents st !! "project" = Some p ∧
    group_contents st !! "support" = Some s ∧
    group_contents st !! "misc" = Some m ∧
    sound extracted st ∧
    ∀ w, main extracted order w = (Ok (), written st c p s m (with_log delta w)).
Proof.
  intros Hd.
  assert (Hs : sound extracted st).
  { eapply (for_tables_sound extracted order initial_groups st
              {| log_file := ""; output_files := ∅ |});
      [apply initial_groups_sound|apply Hd]. }
  destruct (write_outputs_spec st {| log_file := ""; output_files := ∅ |}
              (sound_keyed _ _ Hs)) as (c & p & s & m & Hc & Hp & Hs' & Hm & _).
  exists c, p, s, m. split_and!; try done.
  intros w. unfold main. rewrite (bind_ok _ _ _ _ _ (Hd w)).
  fold (with_log delta w).
  destruct (write_outputs_spec st (with_log delta w) (sound_keyed _ _ Hs))
    as (c' & p' & s' & m' & ? & ? & ? & ? & ->).
  by simplify_eq.
Qed.

Lemma main_raise extracted order e delta :
  appends (for_tables extracted order initial_groups) (Raise e) delta →
  ∀ w, main extracted order w = (Raise e, with_log delta w).
Proof. intros Hd w. unfold main. by rewrite (bind_raise _ _ _ _ _ (Hd w)). Qed.

Lemma output_texts_written st c p s m w :
  output_texts (written st c p s m w)
  = [Some (group_file_text "core" c); Some (group_file_text "project" p);
     Some (group_file_text "support" s); Some (group_file_text "misc" m);
     Some (seed_header +:+ join blank_line (seeds st))].
Proof.
  unfold output_texts, written, OUTPUT_FILES. simpl.
  repeat f_equal; by simplify_map_eq.
Qed.

Lemma output_texts_prepared w :
  output_texts (prepared w) = [Some ""; Some ""; Some ""; Some ""; Some ""].
Proof.
  unfold output_texts, prepared, OUTPUT_FILES. simpl.
  repeat f_equal; by simplify_map_eq.
Qed.

Lemma output_texts_with_log delta w :
  output_texts (with_log delta w) = output_texts w.
Proof. reflexivity. Qed.

(** The script runs [main] twice: what the first run appended to the log
    is appended once more by the second. *)
Lemma script_ok extracted order st delta :
  appends (for_tables extracted order initial_groups) (Ok st) delta →
  ∃ c p s m,
    group_contents st !! "core" = Some c ∧
    group_contents st !! "project" = Some p ∧
    group_contents st !! "support" = Some s ∧
    group_contents st !! "misc" = Some m ∧
    ∀ w, script extracted order w
         = (Ok (), written st c p s m
                     (with_log delta
                        (written st c p s m (with_log delta (prepared w))))).
Proof.
  intros Hd. destruct (main_ok extracted order st delta Hd)
    as (c & p & s & m & ? & ? & ? & ? & _ & Hmain).
  exists c, p, s, m. split_and!; try done. intros w. unfold script.
  rewrite bind_assoc, (bind_ok _ _ _ _ _ (prepare_group_files_spec w)).
  rewrite (bind_ok _ _ _ _ _ (Hmain _)). apply Hmain.
Qed.

Lemma script_raise extracted order e delta :
  appends (for_tables extracted order initial_groups) (Raise e) delta →
  ∀ w, script extracted order w = (Raise e, with_log delta (prepared w)).
Proof.
  intros Hd w. unfold script.
  rewrite bind_assoc, (bind_ok _ _ _ _ _ (prepare_group_files_spec w)).
  by rewrite (bind_raise _ _ _ _ _ (main_raise _ _ _ _ Hd _)).
Qed.

(** Neither the result of the script nor what it leaves in the log and in
    the five output files depends on what was on disk before. *)
Lemma script_independent extracted order :
  ∃ r log outs, ∀ w,
    (script extracted order w).1 = r ∧
    log_file (script extracted order w).2 = log ∧
    output_texts (script extracted order w).2 = outs.
Proof.
  destruct (for_tables_appends extracted order initial_groups)
    as ([st|e] & delta & Hd).
  - destruct (script_ok extracted order st delta Hd)
      as (c & p & s & m & _ & _ & _ & _ & Hscript).
    eexists (Ok ()), (("" +:+ delta) +:+ delta), _. intros w.
    rewrite Hscript. cbn [fst snd]. split_and!; [done|done|].
    apply output_texts_written.
  - eexists (Raise e), ("" +:+ delta), _. intros w.
    rewrite (script_raise _ _ _ _ Hd). cbn [fst snd]. split_and!; [done|done|].
    rewrite output_texts_with_log. apply output_texts_prepared.
Qed.

End SplitterFacts.

(** * Independence of enumeration orders *)

Module OrderFacts.
Import Resolver OrderSpec.

Lemma build_graph_snoc parse_fks listing table text :
  build_graph parse_fks (listing ++ [(table, text)])
  = if contains "CREATE TABLE" text
    then <[table := parse_fks text]> (build_graph parse_fks listing)
    else build_graph parse_fks listing.
Proof. unfold build_graph. by rewrite foldl_snoc. Qed.

Lemma build_graph_lookup parse_fks listing k :
  NoDup listing.*1 →
  build_graph parse_fks listing !! k
  = graph_entry parse_fks (list_to_map listing) k.
Proof.
  unfold graph_entry.
  induction listing as [|[table text] listing IH] using rev_ind; intros Hnd.
  { unfold build_graph. simpl. by rewrite !lookup_empty. }
  rewrite fmap_app in Hnd. apply NoDup_app in Hnd as (Hnd & Hfresh & _).
  assert (Ht : table ∉ listing.*1).
  { intros Hin. apply (Hfresh table Hin). set_solver. }
  rewrite build_graph_snoc, list_to_map_snoc by done.
  destruct (decide (table = k)) as [->|Hne].
  - rewrite lookup_insert_eq.
    destruct (contains "CREATE TABLE" text) eqn:Hc.
    + by rewrite lookup_insert_eq.
    + rewrite IH by done.
      by rewrite (not_elem_of_list_to_map_1 _ _ Ht).
  - rewrite (lookup_insert_ne (list_to_map listing)) by done.
    destruct (contains "CREATE TABLE" text).
    + rewrite lookup_insert_ne by done. by apply IH.
    + by apply IH.
Qed.

(** The graph is a function of the directory, whatever the order in
    which its files are listed. *)
Lemma build_graph_listing parse_fks extracted listing k :
  listing ≡ₚ map_to_list extracted →
  build_graph parse_fks listing !! k = graph_entry parse_fks extracted k.
Proof.
  intros Hp.
  assert (Hnd : NoDup listing.*1) by (rewrite Hp; apply NoDup_fst_map_to_list).
  rewrite build_graph_lookup by done.
  assert (list_to_map listing = extracted) as ->; [|done].
  rewrite <- (list_to_map_to_list extracted).
  by apply list_to_map_proper.
Qed.

Lemma build_graph_order_irrel parse_fks extracted listing1 listing2 :
  listing1 ≡ₚ map_to_list extracted → listing2 ≡ₚ map_to_list extracted →
  build_graph parse_fks listing1 = build_graph parse_fks listing2.
Proof.
  intros H1 H2. apply map_eq. intros k.
  by rewrite !(build_graph_listing parse_fks extracted).
Qed.

Section two_orders.
Context (H1 H2 : HashOrder).
Variable graph : gmap string (gset string).

Lemma deps_of_order_irrel node :
  @deps_of H1 graph node = @deps_of H2 graph node.
Proof. unfold deps_of. by rewrite !sorted_set_iter. Qed.

Lemma visit_deps_ext (v v' : string → list string → state → result state) :
  (∀ node stack s, v node stack s = v' node stack s) →
  ∀ stack deps s, visit_deps v stack deps s = visit_deps v' stack deps s.
Proof.
  intros Hv stack. induction deps as [|dep deps IH]; intros s; simpl; [done|].
  rewrite Hv. destruct (v' dep (stack ++ [dep]) s); simpl; [apply IH|done].
Qed.

Lemma visit_order_irrel fuel : ∀ node stack s,
  @visit H1 graph fuel node stack s = @visit H2 graph fuel node stack s.
Proof.
  induction fuel as [|fuel IH]; intros node stack s; simpl; [done|].
  repeat case_decide; try done.
  rewrite deps_of_order_irrel.
  by rewrite (visit_deps_ext _ _ IH).
Qed.

Lemma visit_tables_order_irrel fuel tables : ∀ s,
  @visit_tables H1 graph fuel tables s = @visit_tables H2 graph fuel tables s.
Proof.
  induction tables as [|t tables IH]; intros s; simpl; [done|].
  rewrite visit_order_irrel.
  destruct (visit graph fuel t [t] s); simpl; [apply IH|done].
Qed.

Lemma resolve_order_irrel limit :
  @resolve H1 graph limit = @resolve H2 graph limit.
Proof.
  unfold resolve. rewrite !sorted_set_iter. apply visit_tables_order_irrel.
Qed.

Lemma report_order_irrel idx resolved :
  @report_order H1 graph idx resolved = @report_order H2 graph idx resolved.
Proof.
  revert idx. induction resolved as [|t resolved IH]; intros idx; simpl; [done|].
  by rewrite deps_of_order_irrel, IH.
Qed.

End two_orders.

Lemma main_order_irrel (H1 H2 : HashOrder) parse_fks extracted listing1 listing2 :
  listing1 ≡ₚ map_to_list extracted → listing2 ≡ₚ map_to_list extracted →
  ∀ limit, @main H1 parse_fks limit listing1 = @main H2 parse_fks limit listing2.
Proof.
  intros Hl1 Hl2 limit. unfold main.
  rewrite (build_graph_order_irrel parse_fks extracted listing1 listing2) by done.
  rewrite (resolve_order_irrel H1 H2).
  destruct (resolve (build_graph parse_fks listing2) limit) as [s|e]; simpl; [|done].
  unfold report_text. by rewrite (report_order_irrel H1 H2).
Qed.

End OrderFacts.
(** * The resolver: what the order holds and what the cycles are *)

Module ResolverMore.
Import Resolver ResolverSpec ResolverFacts GraphSpec.

Section more.
Context `{HashOrder}.
Variable graph : gmap string (gset string).

(** A call of [visit] that returns keeps the invariant, whatever the
    depth it was allowed. *)
Lemma visit_inv fuel node pre s s' :
  inv graph pre s → visit graph fuel node (pre ++ [node]) s = Ok s' →
  inv graph pre s' ∧ extends s s' ∧ reached pre node s'.
Proof.
  intros Hinv Hv.
  set (big := fuel + S (size (dom graph))).
  destruct (visit_spec graph big node pre s Hinv) as (s'' & Hv' & Hres).
  { assert (size (dom graph ∖ list_to_set (C:=gset string) pre)
            ≤ size (dom graph)) by (apply subseteq_size; set_solver).
    unfold big. lia. }
  rewrite (visit_fuel_mono graph fuel big node _ s s') in Hv'; [|unfold big; lia|done].
  by injection Hv' as <-.
Qed.

Lemma visit_deps_inv fuel pre deps : ∀ s s',
  inv graph pre s → visit_deps (visit graph fuel) pre deps s = Ok s' →
  inv graph pre s'.
Proof.
  induction deps as [|dep deps IH]; intros s s' Hinv; simpl.
  - by intros [= <-].
  - destruct (visit graph fuel dep (pre ++ [dep]) s) as [s1|e] eqn:H1; [|done].
    simpl. apply IH. by eapply visit_inv.
Qed.

(** An induction principle for properties of the traversal: [P stack s]
    is kept by the five steps that [visit] is made of. *)
Section preservation.
Variable P : list string → state → Prop.

Hypothesis P_cycle : ∀ pre node s i,
  inv graph pre s → P (pre ++ [node]) s → node ∈ temp s →
  index node (pre ++ [node]) = Some i →
  P (pre ++ [node])
    {| resolved := resolved s; temp := temp s; visited := visited s;
       cycle_report := cycle_report s ++ [drop i (pre ++ [node]) ++ [node]] |}.
Hypothesis P_enter : ∀ pre node s,
  inv graph pre s → P (pre ++ [node]) s →
  node ∉ visited s → node ∉ temp s →
  P (pre ++ [node])
    {| resolved := resolved s; temp := {[node]} ∪ temp s;
       visited := visited s; cycle_report := cycle_report s |}.
Hypothesis P_call : ∀ stack node s dep,
  last stack = Some node → inv graph stack s → P stack s →
  dep ∈ deps_of graph node → P (stack ++ [dep]) s.
Hypothesis P_return : ∀ stack s dep,
  inv graph stack s → P (stack ++ [dep]) s → P stack s.
Hypothesis P_leave : ∀ pre node s,
  inv graph (pre ++ [node]) s → P (pre ++ [node]) s → node ∉ pre →
  P (pre ++ [node])
    {| resolved := resolved s ++ [node]; temp := temp s ∖ {[node]};
       visited := {[node]} ∪ visited s; cycle_report := cycle_report s |}.

Lemma visit_deps_preserves fuel stack node :
  last stack = Some node →
  (∀ dep s s', inv graph stack s → P (stack ++ [dep]) s →
     visit graph fuel dep (stack ++ [dep]) s = Ok s' → P (stack ++ [dep]) s') →
  ∀ deps s s',
    (∀ d, d ∈ deps → d ∈ deps_of graph node) →
    inv graph stack s → P stack s →
    visit_deps (visit graph fuel) stack deps s = Ok s' → P stack s'.
Proof.
  intros Hlast Hvisit. induction deps as [|dep deps IH]; intros s s' Hsub Hinv HP; simpl.
  - by intros [= <-].
  - destruct (visit graph fuel dep (stack ++ [dep]) s) as [s1|e] eqn:H1; [|done].
    simpl. apply IH.
    + intros d Hd. apply Hsub. set_solver.
    + by eapply visit_inv.
    + apply (P_return stack s1 dep); [by eapply visit_inv|].
      eapply Hvisit; [done| |done].
      apply (P_call stack node); [done..|]. apply Hsub. set_solver.
Qed.

Lemma visit_preserves fuel : ∀ node pre s s',
  inv graph pre s → P (pre ++ [node]) s →
  visit graph fuel node (pre ++ [node]) s = Ok s' → P (pre ++ [node]) s'.
Proof.
  induction fuel as [|fuel IH]; intros node pre s s' Hinv HP; [done|].
  simpl. destruct (decide (node ∈ visited s)) as [Hvis|Hvis].
  { by intros [= <-]. }
  destruct (decide (node ∈ temp s)) as [Htmp|Htmp].
  { destruct (index node (pre ++ [node])) as [i|] eqn:Hi; [|done].
    intros [= <-]. by apply P_cycle. }
  pose proof (inv_enter graph pre node s Hinv Hvis Htmp) as Hinv1.
  pose proof (P_enter pre node s Hinv HP Hvis Htmp) as HP1.
  set (s1 := {| resolved := resolved s; temp := {[node]} ∪ temp s;
                visited := visited s; cycle_report := cycle_report s |}) in *.
  destruct (visit_deps (visit graph fuel) (pre ++ [node]) (deps_of graph node) s1)
    as [s2|e] eqn:H2; [|done].
  simpl. intros [= <-].
  assert (Hnp : node ∉ pre) by (by rewrite <- (inv_temp _ _ _ Hinv)).
  apply P_leave; [by eapply visit_deps_inv| |done].
  eapply (visit_deps_preserves fuel (pre ++ [node]) node); [| |done|done|done|done].
  - by rewrite last_snoc.
  - intros dep s0 s0' Hinv0 HP0. by apply IH.
Qed.

Lemma visit_tables_preserves fuel : ∀ tables s s',
  (∀ t, t ∈ tables → t ∈ dom graph) →
  (∀ t s, t ∈ dom graph → inv graph [] s → P [] s → P [t] s) →
  inv graph [] s → P [] s →
  visit_tables graph fuel tables s = Ok s' → P [] s'.
Proof.
  induction tables as [|t tables IH]; intros s s' Hsub Htop Hinv HP; simpl.
  - by intros [= <-].
  - destruct (visit graph fuel t [t] s) as [s1|e] eqn:H1; [|done]. simpl.
    destruct (visit_inv fuel t [] s s1 Hinv H1) as (Hinv1 & _ & _).
    apply IH; [set_solver|done|done|].
    apply (P_return [] s1 t); [done|].
    apply (visit_preserves fuel t [] s s1); [done| |done].
    apply Htop; [set_solver|done|done].
Qed.

End preservation.

(** ** Paths *)

Lemma is_path_snoc stack node dep :
  is_path graph stack → last stack = Some node → edge graph node dep →
  is_path graph (stack ++ [dep]).
Proof.
  intros Hp Hlast He i x y Hx Hy.
  destruct (decide (S i < length stack)) as [Hlt|Hge].
  - rewrite lookup_app_l in Hx by lia. rewrite lookup_app_l in Hy by lia.
    by eapply Hp.
  - assert (S i = length stack) as Hi.
    { apply lookup_lt_Some in Hy. rewrite length_app in Hy. simpl in Hy. lia. }
    rewrite lookup_app_l in Hx by lia.
    rewrite Hi, lookup_app_r in Hy by lia.
    replace (length stack - length stack) with 0 in Hy by lia.
    injection Hy as <-.
    rewrite last_lookup in Hlast. replace (pred (length stack)) with i in Hlast by lia.
    by simplify_eq.
Qed.

Lemma is_path_prefix stack l : is_path graph (stack ++ l) → is_path graph stack.
Proof.
  intros Hp i x y Hx Hy. apply (Hp i); by apply lookup_app_l_Some.
Qed.

Lemma is_path_drop stack i : is_path graph stack → is_path graph (drop i stack).
Proof.
  intros Hp k x y. rewrite !lookup_drop. replace (i + S k) with (S (i + k)) by lia.
  apply Hp.
Qed.

Lemma is_path_cons x y l :
  is_path graph (x :: y :: l) ↔ edge graph x y ∧ is_path graph (y :: l).
Proof.
  split.
  - intros Hp. split; [by apply (Hp 0)|].
    intros i a b Ha Hb. by apply (Hp (S i)).
  - intros [He Hp] [|i] a b Ha Hb; simplify_eq/=; [done|]. by eapply Hp.
Qed.

(** ** What the order holds *)

Lemma edge_deps_of node dep : dep ∈ deps_of graph node ↔ edge graph node dep.
Proof. apply deps_of_elem_of. Qed.

Lemma index_elem_of x l i : index x l = Some i → x ∈ l.
Proof. intros Hi%index_lookup. apply list_elem_of_lookup. eauto. Qed.

Lemma resolve_occurs limit s :
  resolve graph limit = Ok s → ∀ t, t ∈ resolved s → occurs graph t.
Proof.
  intros Hs.
  pose (P := λ (stack : list string) (s : state),
          (∀ x, x ∈ stack → occurs graph x) ∧
          (∀ x, x ∈ resolved s → occurs graph x)).
  assert (HP : P [] s); [|apply HP].
  unfold resolve in Hs.
  eapply (visit_tables_preserves P); [..|exact Hs]; unfold P; simpl.
  - intros pre node s0 i _ HP _ _. done.
  - intros pre node s0 _ HP _ _. done.
  - intros stack node s0 dep _ _ [Hst Hres] Hdep. split; [|done].
    intros x [Hx| ->%list_elem_of_singleton]%elem_of_app; [by apply Hst|].
    right. exists node. by apply edge_deps_of.
  - intros stack s0 dep _ [Hst Hres]. split; [|done].
    intros x Hx. apply Hst. set_solver.
  - intros pre node s0 _ [Hst Hres] _. split; [done|].
    intros x [Hx| ->%list_elem_of_singleton]%elem_of_app; [by apply Hres|].
    apply Hst. set_solver.
  - intros t. by rewrite elem_of_sorted_set_iter.
  - intros t s0 Ht _ [_ Hres]. split; [|done].
    intros x ->%list_elem_of_singleton. by left.
  - apply inv_initial.
  - split; intros x Hx; by apply elem_of_nil in Hx.
Qed.

Lemma resolve_cycle_members limit s :
  resolve graph limit = Ok s →
  ∀ c x, c ∈ cycle_report s → x ∈ c → x ∈ visited s ∨ x ∈ temp s.
Proof.
  intros Hs.
  pose (P := λ (stack : list string) (s : state),
          ∀ c x, c ∈ cycle_report s → x ∈ c → x ∈ visited s ∨ x ∈ temp s).
  change (P [] s). unfold resolve in Hs.
  eapply (visit_tables_preserves P); [..|exact Hs]; unfold P; simpl.
  - intros pre node s0 i Hinv HP Htmp Hi c x
      [Hc| ->%list_elem_of_singleton]%elem_of_app Hx; [by eapply HP|].
    right. apply elem_of_app in Hx as [Hx| ->%list_elem_of_singleton]; [|done].
    apply list_elem_of_lookup in Hx as [k Hk]. rewrite lookup_drop in Hk.
    apply list_elem_of_lookup_2, elem_of_app in Hk
      as [Hk| ->%list_elem_of_singleton]; [|done].
    by apply (inv_temp _ _ _ Hinv).
  - intros pre node s0 _ HP _ _ c x Hc Hx.
    destruct (HP c x Hc Hx); [by left|right; set_solver].
  - intros stack node s0 dep _ _ HP _. done.
  - intros stack s0 dep _ HP. done.
  - intros pre node s0 _ HP _ c x Hc Hx.
    destruct (decide (x = node)) as [->|]; [left; set_solver|].
    destruct (HP c x Hc Hx); [left|right]; set_solver.
  - intros t. by rewrite elem_of_sorted_set_iter.
  - intros t s0 _ _ HP. done.
  - apply inv_initial.
  - intros c x Hc. by apply elem_of_nil in Hc.
Qed.

Lemma resolve_paths limit s :
  resolve graph limit = Ok s → Forall (closed_path_twice graph) (cycle_report s).
Proof.
  intros Hs.
  pose (P := λ (stack : list string) (s : state),
          is_path graph stack ∧
          Forall (closed_path_twice graph) (cycle_report s)).
  assert (HP : P [] s); [|apply HP].
  unfold resolve in Hs.
  eapply (visit_tables_preserves P); [..|exact Hs]; unfold P; simpl.
  - intros pre node s0 i Hinv [Hpath Hcyc] Htmp Hi. split; [done|].
    apply Forall_app. split; [done|]. constructor; [|done].
    assert (Hpre : node ∈ pre) by (by apply (inv_temp _ _ _ Hinv)).
    destruct (index_is_Some _ _ Hpre) as [j Hj].
    pose proof (index_app_l _ _ [node] _ Hj) as Hj'.
    rewrite Hj' in Hi. injection Hi as <-.
    pose proof (index_lt _ _ _ Hj) as Hlt. apply index_lookup in Hj.
    exists node, (drop (S j) pre). split.
    + rewrite drop_app_le by lia. by rewrite (drop_S _ _ _ Hj).
    + replace (node :: drop (S j) pre ++ [node]) with (drop j (pre ++ [node])).
      { by apply is_path_drop. }
      rewrite drop_app_le by lia. by rewrite (drop_S _ _ _ Hj).
  - intros pre node s0 _ HP _ _. done.
  - intros stack node s0 dep Hlast _ [Hpath Hcyc] Hdep. split; [|done].
    apply (is_path_snoc stack node); [done|done|]. by apply edge_deps_of.
  - intros stack s0 dep _ [Hpath Hcyc]. split; [|done].
    by eapply is_path_prefix.
  - intros pre node s0 _ HP _. done.
  - intros t. by rewrite elem_of_sorted_set_iter.
  - intros t s0 _ _ [_ Hcyc]. split; [|done].
    intros [|i] x y Hx Hy; simplify_eq/=.
  - apply inv_initial.
  - split; [|done]. intros i x y Hx. done.
Qed.

Lemma before_trans a b c l : before a b l → before b c l → before a c l.
Proof.
  intros (i & j & Hi & Hj & ?) (j' & k & Hj' & Hk & ?).
  exists i, k. split_and!; [done|done|]. simplify_eq. lia.
Qed.

(** Along a path, positions in an order without reported cycle go down. *)
Lemma path_positions s :
  inv graph [] s → (∀ t, t ∈ dom graph → t ∈ visited s) →
  cycle_report s = [] →
  ∀ l a b, is_path graph (a :: l ++ [b]) → before b a (resolved s).
Proof.
  intros Hinv Hall Hnone.
  assert (Hedge : ∀ a b, edge graph a b → before b a (resolved s)).
  { intros a b He. destruct (inv_ordered _ _ _ Hinv a b) as [?|(c & Hc & _)].
    - apply (inv_visited _ _ _ Hinv), Hall, elem_of_dom.
      destruct He as (deps & -> & _). eauto.
    - by apply edge_deps_of.
    - done.
    - rewrite Hnone in Hc. by apply elem_of_nil in Hc. }
  induction l as [|c l IH]; intros a b Hp.
  - apply Hedge. by apply (Hp 0).
  - change (a :: (c :: l) ++ [b]) with (a :: c :: l ++ [b]) in Hp.
    apply is_path_cons in Hp as [He Hp].
    eapply before_trans; [by apply IH|by apply Hedge].
Qed.

Lemma resolve_contents limit s :
  resolve graph limit = Ok s →
  NoDup (resolved s) ∧ ∀ t, t ∈ resolved s ↔ occurs graph t.
Proof.
  intros Hs. destruct (resolve_Ok graph limit s Hs) as [Hinv Hall].
  split; [apply Hinv|]. intros t. split.
  - by apply (resolve_occurs limit).
  - intros [Ht|(T & deps & HT & Hd)].
    + by apply (inv_visited _ _ _ Hinv), Hall.
    + assert (HTr : T ∈ resolved s).
      { apply (inv_visited _ _ _ Hinv), Hall, elem_of_dom. eauto. }
      destruct (inv_ordered _ _ _ Hinv T t HTr) as [(i & _ & Hi & _)|(c & Hc & _ & Htc)].
      * apply deps_of_elem_of. eauto.
      * by eapply index_elem_of.
      * destruct (resolve_cycle_members limit s Hs c t Hc Htc) as [Hv|Htmp].
        -- by apply (inv_visited _ _ _ Hinv).
        -- apply (inv_temp _ _ _ Hinv) in Htmp. by apply elem_of_nil in Htmp.
Qed.

Lemma resolve_acyclic limit s :
  resolve graph limit = Ok s → (cycle_report s = [] ↔ acyclic graph).
Proof.
  intros Hs. destruct (resolve_Ok graph limit s Hs) as [Hinv Hall]. split.
  - intros Hnone x l Hp.
    destruct (path_positions s Hinv Hall Hnone l x x Hp)
      as (i & j & Hi & Hj & Hlt).
    simplify_eq. lia.
  - intros Hac. pose proof (resolve_paths limit s Hs) as Hcyc.
    destruct (cycle_report s) as [|c cs]; [done|].
    apply Forall_cons in Hcyc as [(x & l & _ & Hp) _].
    by destruct (Hac x l).
Qed.

End more.
End ResolverMore.

(** * The splitter: statements, coverage and seeds *)

Module SplitterMore.
Import Splitter SplitterSpec SplitterFacts CoverageSpec.

(** ** Substrings *)

Lemma prefix_app p s : String.prefix p s = true ↔ ∃ b, s = p +:+ b.
Proof.
  revert s. induction p as [|c p IH]; intros s.
  - split; [intros _; by exists s|]. intros _. by destruct s.
  - destruct s as [|a s].
    + split; [done|]. intros [b Hb]. done.
    + change (String.prefix (String c p) (String a s))
        with (if ascii_dec c a then String.prefix p s else false).
      destruct (ascii_dec c a) as [->|Hne].
      * rewrite IH. split; intros [b Hb]; exists b.
        -- by rewrite app_cons, <- Hb.
        -- rewrite app_cons in Hb. by injection Hb.
      * split; [done|]. intros [b Hb]. rewrite app_cons in Hb. congruence.
Qed.

Lemma contains_spec p s : contains p s = true ↔ ∃ a b, s = a +:+ p +:+ b.
Proof.
  induction s as [|c s IH].
  - destruct p as [|c p].
    + split; [intros _; by exists "", ""|done].
    + split; [done|]. intros (a & b & Hab). by destruct a.
  - change (contains p (String c s))
      with (String.prefix p (String c s) || contains p s).
    rewrite orb_true_iff, IH, prefix_app. split.
    + intros [[b Hb]|(a & b & Hab)].
      * by exists "", b.
      * exists (String c a), b. by rewrite app_cons, Hab.
    + intros (a & b & Hab). destruct a as [|a0 a].
      * left. by exists b.
      * right. rewrite app_cons in Hab. injection Hab as -> ->. by exists a, b.
Qed.

(** ** The statements of [split_statements] *)

Lemma rstrip_idemp x : rstrip (rstrip x) = rstrip x.
Proof.
  induction x as [|c x IH]; [done|]. simpl.
  destruct (rstrip x) as [|a r] eqn:Hr.
  - destruct (isspace c) eqn:Hc; [done|]. simpl. by rewrite Hc.
  - change (rstrip (String c (String a r))) with
      (match rstrip (String a r) with
       | EmptyString => if isspace c then EmptyString else String c EmptyString
       | r' => String c r'
       end).
    by rewrite IH.
Qed.

Lemma rstrip_lstripped x : lstrip x = x → lstrip (rstrip x) = rstrip x.
Proof.
  destruct x as [|c x]; [done|]. simpl.
  destruct (isspace c) eqn:Hc.
  - intros Hx. exfalso. apply (f_equal String.length) in Hx.
    assert (Hle : ∀ y, String.length (lstrip y) ≤ String.length y).
    { clear. induction y as [|a y IH]; simpl; [lia|].
      destruct (isspace a); simpl; lia. }
    specialize (Hle x). simpl in Hx. lia.
  - intros _. destruct (rstrip x); simpl; by rewrite Hc.
Qed.

Lemma strip_idemp x : strip (strip x) = strip x.
Proof.
  unfold strip. rewrite rstrip_lstripped by apply lstrip_idemp.
  apply rstrip_idemp.
Qed.

Lemma split_loop_stripped text : ∀ b st,
  Forall (λ s, s ≠ "" ∧ strip s = s) st →
  Forall (λ s, s ≠ "" ∧ strip s = s) (split_loop text b st).1.
Proof.
  induction text as [|c text IH]; intros b st Hst; [done|]. simpl.
  case_decide; apply IH; [|done].
  destruct (nonempty _) eqn:Hne; [|done].
  apply Forall_app. split; [done|]. constructor; [|done].
  split; [by destruct (strip _)|apply strip_idemp].
Qed.

Lemma split_statements_stripped text s :
  s ∈ split_statements text → s ≠ "" ∧ strip s = s.
Proof.
  unfold split_statements.
  pose proof (split_loop_stripped text "" [] (Forall_nil_2 _)) as Hst.
  destruct (split_loop text "" []) as [st b]. simpl in *.
  assert (Hall : Forall (λ s, s ≠ "" ∧ strip s = s)
            (if nonempty b then
               if nonempty (strip b) then st ++ [strip b] else st
             else st)).
  { destruct (nonempty b); [|done]. destruct (nonempty (strip b)) eqn:Hne; [|done].
    apply Forall_app. split; [done|]. constructor; [|done].
    split; [by destruct (strip b)|apply strip_idemp]. }
  intros Hin. by eapply Forall_forall in Hall.
Qed.

Lemma split_statements_single s :
  s ≠ "" → strip s = s → one_statement s → split_statements s = [s].
Proof.
  intros Hne Hs (u & Hu & [->| ->]); unfold split_statements.
  - rewrite split_loop_no_semicolon by done.
    change ("" +:+ u) with u. by rewrite (nonempty_true _ Hne), Hs, (nonempty_true _ Hne).
  - rewrite split_loop_app, (split_loop_no_semicolon u) by done.
    cbn [fst snd]. rewrite split_loop_semicolon.
    change ("" +:+ u) with u. by rewrite Hs, (nonempty_true _ Hne).
Qed.

(** ** [is_ddl] and [is_insert] *)

Lemma isspace_upper_char c : isspace (upper_char c) = isspace c.
Proof. by destruct c as [[] [] [] [] [] [] [] []]. Qed.

Lemma upper_char_idemp c : upper_char (upper_char c) = upper_char c.
Proof. by destruct c as [[] [] [] [] [] [] [] []]. Qed.

Lemma lstrip_upper s : lstrip (upper s) = upper (lstrip s).
Proof.
  induction s as [|c s IH]; [done|]. simpl. rewrite isspace_upper_char.
  by destruct (isspace c).
Qed.

Lemma upper_idemp s : upper (upper s) = upper s.
Proof.
  induction s as [|c s IH]; [done|]. simpl. by rewrite upper_char_idemp, IH.
Qed.

(** ** Which block goes where *)

Lemma accounted_ext st (f f' : string → list string) :
  (∀ g, f g = f' g) → accounted st f → accounted st f'.
Proof. intros Hf Ha g Hg. rewrite <- Hf. by apply Ha. Qed.

Lemma initial_groups_accounted : accounted initial_groups (λ _, []).
Proof.
  intros g Hg. destruct (initial_groups_lookup g Hg) as [-> ->]. done.
Qed.

Lemma join_snoc_body body_blocks block :
  Forall (λ b, b ≠ "") body_blocks → block ≠ "" →
  join blank_line body_blocks
  +:+ (if nonempty (join blank_line body_blocks)
       then blank_line +:+ block else block)
  = join blank_line (body_blocks ++ [block]).
Proof.
  intros Hall Hne. destruct (nonempty (join blank_line body_blocks)) eqn:Hb.
  - rewrite join_app; [done| |done]. intros ->. done.
  - apply nonempty_false in Hb. rewrite Hb.
    apply join_empty in Hb; [|done]. by subst.
Qed.

Lemma placed_in_accounted g block st st' placed :
  block ≠ "" → accounted st placed → g ∈ GROUP_ORDER →
  placed_in g block st st' →
  accounted st' (λ g', placed g' ++ (if decide (g' = g) then [block] else [])).
Proof.
  intros Hne Ha Hg (n & body & Hn & _ & Hb & ->)%write_group_content_true g' Hg'.
  simpl. destruct (Ha g' Hg') as (Hc' & Hl' & Hall').
  case_decide as Heq.
  - subst g'. rewrite !lookup_insert_eq. simplify_eq.
    split_and!.
    + by rewrite join_snoc_body.
    + rewrite fmap_app, sum_list_with_app. simpl. f_equal. lia.
    + apply Forall_app. split; [done|]. by constructor.
  - rewrite !lookup_insert_ne by done. by rewrite app_nil_r.
Qed.

Lemma mjoin_fmap_app {A} (f h : string → list A) (l : list string) :
  mjoin ((λ g, f g ++ h g) <$> l) ≡ₚ mjoin (f <$> l) ++ mjoin (h <$> l).
Proof.
  induction l as [|x l IH]; [done|]. csimpl. rewrite IH.
  rewrite <- !app_assoc. apply Permutation_app_head.
  rewrite !app_assoc. apply Permutation_app_tail, Permutation_app_comm.
Qed.

Lemma mjoin_fmap_none {A} (b : A) g (l : list string) :
  g ∉ l → mjoin ((λ g', if decide (g' = g) then [b] else []) <$> l) = [].
Proof.
  induction l as [|y l IH]; [done|]. intros Hn. csimpl.
  rewrite decide_False by set_solver. rewrite IH by set_solver. done.
Qed.

Lemma mjoin_fmap_single {A} (b : A) g (l : list string) :
  NoDup l → g ∈ l →
  mjoin ((λ g', if decide (g' = g) then [b] else []) <$> l) = [b].
Proof.
  induction 1 as [|x l Hx Hnd IH]; [by intros ?%elem_of_nil|]. csimpl.
  intros Hin. destruct (decide (x = g)) as [Heq|Hne].
  - subst x. by rewrite mjoin_fmap_none.
  - apply IH. set_solver.
Qed.

Lemma blocks_of_cons extracted t order :
  blocks_of extracted (t :: order)
  = match extracted !! t ≫= ddl_block_of with
    | Some block => block :: blocks_of extracted order
    | None => blocks_of extracted order
    end.
Proof. reflexivity. Qed.

Lemma seeds_of_cons extracted t order :
  seeds_of extracted (t :: order)
  = seeds_of extracted [t] ++ seeds_of extracted order.
Proof. unfold seeds_of. simpl. by rewrite app_nil_r. Qed.

Lemma NoDup_GROUP_ORDER : NoDup GROUP_ORDER.
Proof. apply (bool_decide_unpack (NoDup GROUP_ORDER)). by vm_compute. Qed.

(** The loop of [main], from any state whose dicts are accounted for. *)
Lemma for_tables_accounted extracted : ∀ order st w st' w' placed,
  sound extracted st → accounted st placed →
  for_tables extracted order st w = (Ok st', w') →
  ∃ new : string → list string,
    accounted st' (λ g, placed g ++ new g) ∧
    (∀ g, new g `sublist_of` blocks_of extracted order) ∧
    mjoin (new <$> GROUP_ORDER) ≡ₚ blocks_of extracted order ∧
    seeds st' = seeds st ++ seeds_of extracted order.
Proof.
  induction order as [|t order IH]; intros st w st' w' placed Hs Ha.
  - intros [= <- <-]. exists (λ _, []). split_and!.
    + eapply accounted_ext; [|done]. intros g. by rewrite app_nil_r.
    + done.
    + done.
    + by rewrite app_nil_r.
  - rewrite for_tables_cons. intros Hrun.
    destruct (process_table_cases extracted t st w (sound_keyed _ _ Hs))
      as [[Heq Hskip]|[(text & block & p & j & g & st1 & Ht & Hblock & _ & _ & Hg & _
                  & Hpl & Heq)|[_ (p & _ & Heq)]]].
    + rewrite (bind_ok _ _ _ _ _ Heq) in Hrun.
      destruct (IH _ _ _ _ placed Hs Ha Hrun) as (new & Hnew & Hsub & Hperm & Hseeds).
      assert (Hnone : extracted !! t ≫= ddl_block_of = None).
      { destruct Hskip as [->|(text & -> & Hb)]; [done|]. done. }
      exists new. rewrite blocks_of_cons, Hnone. split_and!; [done..|].
      rewrite seeds_of_cons, Hseeds. f_equal.
      unfold seeds_of. simpl.
      destruct Hskip as [->|(text & -> & ->)]; done.
    + rewrite (bind_ok _ _ _ _ _ Heq) in Hrun.
      pose proof (process_table_sound _ _ _ _ _ _ Hs Heq) as Hs1.
      destruct (ddl_block_structural _ _ _ _ Ht Hblock) as [_ Hne].
      assert (Hgin : g ∈ GROUP_ORDER) by (apply list_elem_of_lookup; eauto).
      pose proof (placed_in_accounted g block st st1 placed Hne Ha Hgin Hpl) as Ha1.
      destruct (IH _ _ _ _ _ Hs1 Ha1 Hrun) as (new & Hnew & Hsub & Hperm & Hseeds).
      exists (λ g', (if decide (g' = g) then [block] else []) ++ new g').
      assert (Hsome : extracted !! t ≫= ddl_block_of = Some block).
      { by rewrite Ht. }
      rewrite blocks_of_cons, Hsome. split_and!.
      * eapply accounted_ext; [|done]. intros g'. cbv beta.
        by rewrite <- app_assoc.
      * intros g'. case_decide.
        -- change ([block] ++ new g') with (block :: new g').
           apply sublist_skip, Hsub.
        -- change ([] ++ new g') with (new g'). apply sublist_cons, Hsub.
      * rewrite mjoin_fmap_app, mjoin_fmap_single, Hperm;
          [done|apply NoDup_GROUP_ORDER|done].
      * rewrite Hseeds, collect_seeds_seeds, (placed_in_seeds _ _ _ _ Hpl).
        rewrite seeds_of_cons, app_assoc. f_equal. f_equal.
        unfold seeds_of. simpl. rewrite Ht, Hblock, app_nil_r.
        case_decide; [done|by rewrite app_nil_r].
    + by rewrite (bind_raise _ _ _ _ _ Heq) in Hrun.
Qed.

(** ** Counting lines *)

Lemma count_newlines_app a b :
  count_newlines (a +:+ b) = count_newlines a + count_newlines b.
Proof.
  induction a as [|c a IH]; [done|]. rewrite app_cons. simpl. rewrite IH. lia.
Qed.

Lemma count_newlines_join blocks :
  blocks ≠ [] →
  count_newlines (join blank_line blocks) + 2
  = sum_list (block_lines <$> blocks) + length blocks.
Proof.
  induction blocks as [|b blocks IH]; [done|]. intros _.
  destruct blocks as [|b' blocks].
  - change (count_newlines b + 2 = (count_newlines b + 1 + 0) + 1). lia.
  - rewrite join_cons by done. rewrite !count_newlines_app.
    change (count_newlines blank_line) with 2.
    change (block_lines <$> b :: b' :: blocks)
      with (block_lines b :: (block_lines <$> b' :: blocks)).
    change (sum_list (block_lines b :: (block_lines <$> b' :: blocks)))
      with (block_lines b + sum_list (block_lines <$> b' :: blocks)).
    change (length (b :: b' :: blocks)) with (S (length (b' :: blocks))).
    specialize (IH ltac:(done)). unfold block_lines at 1. lia.
Qed.

End SplitterMore.

(** * The extractor *)

Module ExtractorFacts.
Import Extractor ExtractorSpec.

Lemma add_block_lookup extracted table block t :
  default [] (add_block extracted table block !! t)
  = default [] (extracted !! t)
    ++ (if decide (table = t) then [_sanitize block] else []).
Proof.
  unfold add_block. case_decide as Heq.
  - subst. by rewrite lookup_insert_eq.
  - rewrite lookup_insert_ne by done. by rewrite app_nil_r.
Qed.

Lemma add_block_no_empty extracted table block :
  no_empty_list extracted → no_empty_list (add_block extracted table block).
Proof.
  intros Hne t. unfold add_block. destruct (decide (table = t)) as [->|].
  - rewrite lookup_insert_eq. intros [= Heq]. by destruct (default [] _).
  - rewrite lookup_insert_ne by done. apply Hne.
Qed.

Lemma matches_for_cons t table block matches :
  matches_for t ((table, block) :: matches)
  = (if decide (table = t) then [_sanitize block] else [])
    ++ matches_for t matches.
Proof. unfold matches_for. simpl. by case_decide. Qed.

Lemma add_matches_spec matches : ∀ extracted,
  no_empty_list extracted →
  no_empty_list (add_matches matches extracted) ∧
  ∀ t, default [] (add_matches matches extracted !! t)
       = default [] (extracted !! t)
         ++ (if decide (t ∈ EXCLUDED_TABLES) then []
             else matches_for t matches).
Proof.
  induction matches as [|[table block] matches IH]; intros extracted Hne.
  - split; [done|]. intros t. simpl. case_decide; by rewrite app_nil_r.
  - change (add_matches ((table, block) :: matches) extracted)
      with (add_matches matches
              (if decide (table ∈ EXCLUDED_TABLES) then extracted
               else add_block extracted table block)).
    destruct (decide (table ∈ EXCLUDED_TABLES)) as [Hex|Hex].
    + destruct (IH extracted Hne) as [Hne' Hl]. split; [done|].
      intros t. rewrite Hl. f_equal. case_decide; [done|].
      rewrite matches_for_cons, decide_False; [done|]. by intros ->.
    + destruct (IH _ (add_block_no_empty extracted table block Hne))
        as [Hne' Hl].
      split; [done|]. intros t. rewrite Hl, add_block_lookup, <- app_assoc.
      f_equal. rewrite matches_for_cons.
      destruct (decide (table = t)) as [->|Hneq].
      * repeat case_decide; done.
      * repeat case_decide; done.
Qed.

Lemma collect_spec create_matches insert_matches files :
  no_empty_list (collect create_matches insert_matches files) ∧
  ∀ t, default [] (collect create_matches insert_matches files !! t)
       = if decide (t ∈ EXCLUDED_TABLES) then []
         else blocks_for create_matches insert_matches files t.
Proof.
  unfold collect. induction files as [|[name text] files IH] using rev_ind.
  - change (foldl _ ∅ []) with (∅ : gmap string (list string)).
    split; [intros t; by rewrite lookup_empty|].
    intros t. rewrite lookup_empty. simpl. by case_decide.
  - rewrite foldl_snoc. destruct IH as [Hne Hl].
    destruct (add_matches_spec (create_matches text) _ Hne) as [Hne1 Hl1].
    destruct (add_matches_spec (insert_matches text) _ Hne1) as [Hne2 Hl2].
    split; [done|]. intros t. rewrite Hl2, Hl1, Hl.
    unfold blocks_for. rewrite bind_app. simpl.
    case_decide; [done|]. by rewrite app_nil_r, app_assoc.
Qed.

End ExtractorFacts.
(** * The resolver on a ring of tables *)

Module RingFacts.
Import Resolver Examples.

Lemma table_name_inj i j : table_name i = table_name j → i = j.
Proof.
  unfold table_name, str_of_nat. intros Heq.
  apply (inj (String.app "t")) in Heq. by apply (inj pretty) in Heq.
Qed.

Lemma ring_lookup n i :
  i < n → ring n !! table_name i = Some {[table_name (S i `mod` n)]}.
Proof.
  intros Hi. unfold ring. apply elem_of_list_to_map_1.
  - rewrite <- list_fmap_compose. apply NoDup_fmap_2_strong; [|apply NoDup_seq].
    intros a b _ _ Hab. by apply table_name_inj.
  - apply list_elem_of_fmap. exists i. split; [done|].
    apply elem_of_seq. lia.
Qed.

Lemma ring_dom n x : x ∈ dom (ring n) → ∃ i, i < n ∧ x = table_name i.
Proof.
  intros [deps Hx]%elem_of_dom. unfold ring in Hx.
  apply elem_of_list_to_map_2, list_elem_of_fmap in Hx as (i & [= -> _] & Hi).
  apply elem_of_seq in Hi. exists i. split; [lia|done].
Qed.

(** Two positions on the ring less than a full turn apart differ. *)
Lemma ring_positions n k l j :
  l < j → j < n → (k + l) `mod` n ≠ (k + j) `mod` n.
Proof.
  intros Hlj Hjn Heq.
  assert (Hn : n ≠ 0) by lia.
  pose proof (Nat.div_mod_eq (k + l) n) as H1.
  pose proof (Nat.div_mod_eq (k + j) n) as H2.
  rewrite Heq in H1.
  assert (n * ((k + j) `div` n) = n * ((k + l) `div` n) + (j - l)) as Hd by lia.
  assert ((k + l) `div` n < (k + j) `div` n) as Hq by nia.
  nia.
Qed.

Section walk.
Context `{HashOrder}.

Lemma deps_of_ring n i :
  i < n → deps_of (ring n) (table_name i) = [table_name (S i `mod` n)].
Proof.
  intros Hi. unfold deps_of. rewrite ring_lookup by done. simpl.
  apply Permutation_singleton_r.
  by rewrite sorted_perm, set_iter_perm, elements_singleton.
Qed.

(** A walk that began at position [k] and has [j] tables in progress
    raises when the depth left does not reach the end of the turn. *)
Lemma visit_ring n k : ∀ depth j stack s,
  j + depth ≤ n → visited s = ∅ →
  (∀ x, x ∈ temp s → ∃ l, l < j ∧ x = table_name ((k + l) `mod` n)) →
  visit (ring n) depth (table_name ((k + j) `mod` n)) stack s
  = Raise RecursionError.
Proof.
  induction depth as [|depth IH]; intros j stack s Hj Hvis Htemp; [done|].
  assert (Hn : n ≠ 0) by lia.
  simpl. rewrite Hvis.
  destruct (decide (table_name ((k + j) `mod` n) ∈ (∅ : gset string)))
    as [Hin|_]; [set_solver|].
  destruct (decide (table_name ((k + j) `mod` n) ∈ temp s)) as [Hin|_].
  { destruct (Htemp _ Hin) as (l & Hl & Heq). apply table_name_inj in Heq.
    destruct (ring_positions n k l j); [done|lia|done]. }
  rewrite deps_of_ring by (apply Nat.mod_upper_bound; done).
  simpl.
  replace (S ((k + j) `mod` n) `mod` n) with ((k + S j) `mod` n).
  2:{ replace (S ((k + j) `mod` n)) with ((k + j) `mod` n + 1) by lia.
      rewrite Nat.Div0.add_mod_idemp_l. f_equal. lia. }
  rewrite IH; [done|lia|done|]. simpl.
  intros x [->%elem_of_singleton|Hx]%elem_of_union.
  - exists j. split; [lia|done].
  - destruct (Htemp x Hx) as (l & Hl & ->). exists l. split; [lia|done].
Qed.

(** A ring of [n] tables, under an interpreter that allows no more than
    [n] nested calls: whichever table comes first, the walk around the
    ring is cut short by [RecursionError]. *)
Lemma ring_raises n limit :
  0 < n → limit ≤ n → resolve (ring n) limit = Raise RecursionError.
Proof.
  intros Hn Hlimit. unfold resolve.
  destruct (sorted (set_iter (dom (ring n)))) as [|first rest] eqn:Hs.
  { assert (table_name 0 ∈ sorted (set_iter (dom (ring n)))) as Hin.
    { apply elem_of_sorted_set_iter, elem_of_dom.
      rewrite ring_lookup by done. eauto. }
    rewrite Hs in Hin. by apply elem_of_nil in Hin. }
  assert (first ∈ dom (ring n)) as Hfirst.
  { apply elem_of_sorted_set_iter. rewrite Hs. by left. }
  apply ring_dom in Hfirst as (k & Hk & ->). simpl.
  rewrite <- (Nat.mod_small k n Hk) at 1.
  replace (k `mod` n) with ((k + 0) `mod` n) by (f_equal; lia).
  rewrite (visit_ring n k limit 0); [done|lia|done|].
  simpl. intros x Hx. by apply elem_of_empty in Hx.
Qed.

End walk.
End RingFacts.


(** * The properties of the specification *)

Section resolver_claims.
Import Resolver ResolverSpec ResolverFacts GraphSpec ResolverMore.

(** C1 (topological validity).  For every dependency graph and all tables
    [T] and [D] such that [D] is a dependency of [T] and [D] is a node of
    the graph: in the order that the resolver returns, the position of
    [D] is strictly less than the position of [T], except when [T] and
    [D] occur together in a reported cycle.  This holds for every
    iteration order of the sets and for every depth of recursion that the
    interpreter allows; the resolver returns an order unless the graph
    has at least as many nodes as the interpreter allows nested calls,
    and then what it raises is [RecursionError]. *)
Theorem topological_validity `{HashOrder} (limit : nat)
    (graph : gmap string (gset string)) (T D : string) (deps : gset string) :
  graph !! T = Some deps → D ∈ deps → D ∈ dom graph →
  match resolve graph limit with
  | Ok s => before D T (resolved s) ∨ in_reported_cycle T D (cycle_report s)
  | Raise e => e = RecursionError ∧ limit ≤ size (dom graph)
  end.
Proof.
  intros HT HD _. pose proof (resolve_cases graph limit) as Hc.
  destruct (resolve graph limit) as [s|e]; [|done].
  destruct Hc as (Hinv & Hall & _). apply (inv_ordered _ _ _ Hinv).
  - apply (inv_visited _ _ _ Hinv), Hall, elem_of_dom. eauto.
  - apply deps_of_elem_of. eauto.
Qed.

(** C2, as amended.  The traversal terminates on every dependency graph,
    with self-references and cycles or without: a table in progress is
    never entered again.  When the interpreter allows more nested calls
    of [visit] than the graph has nodes, the resolver returns.  Whenever
    it returns, any larger limit gives the same result and every node of
    the graph occurs exactly once in the Resolved Order.  Otherwise it
    raises [RecursionError], and no order is produced. *)
Theorem resolver_terminates_and_covers `{HashOrder} (limit : nat)
    (graph : gmap string (gset string)) :
  (size (dom graph) < limit → ∃ s, resolve graph limit = Ok s) ∧
  match resolve graph limit with
  | Ok s =>
      (∀ limit', limit ≤ limit' → resolve graph limit' = Ok s) ∧
      (∀ t, t ∈ dom graph → count t (resolved s) = 1)
  | Raise e => e = RecursionError
  end.
Proof.
  split.
  - intros Hlimit. destruct (resolve_enough graph limit Hlimit) as (s & Hs & _).
    eauto.
  - pose proof (resolve_cases graph limit) as Hc.
    destruct (resolve graph limit) as [s|e]; [|apply Hc].
    destruct Hc as (Hinv & Hall & Hmono). split; [done|].
    intros t Ht. apply count_NoDup; [apply Hinv|].
    by apply (inv_visited _ _ _ Hinv), Hall.
Qed.

End resolver_claims.

Lemma topological_validity_witness :
  match Resolver.resolve Examples.graph_roles Resolver.default_recursion_limit with
  | Ok s =>
      ResolverSpec.before "roles" "role_permissions" (Resolver.resolved s) ∨
      ResolverSpec.in_reported_cycle "role_permissions" "roles"
        (Resolver.cycle_report s)
  | Raise e =>
      e = RecursionError ∧
      Resolver.default_recursion_limit ≤ size (dom Examples.graph_roles)
  end.
Proof.
  apply (topological_validity Resolver.default_recursion_limit
           Examples.graph_roles "role_permissions" "roles" {["roles"]}).
  - reflexivity.
  - apply elem_of_singleton. reflexivity.
  - apply elem_of_dom. exists ∅. reflexivity.
Defined.

Lemma resolver_terminates_and_covers_witness :
  ∃ s, Resolver.resolve Examples.graph_ab Resolver.default_recursion_limit = Ok s.
Proof.
  apply (resolver_terminates_and_covers Resolver.default_recursion_limit
           Examples.graph_ab).
  vm_compute. lia.
Defined.

(** C2, as stated, fails: a ring of 1000 tables, each with a foreign key
    to the next and the last with one to the first, is a dependency graph
    on which the resolver produces no order.  Whichever table the
    traversal starts with, the calls of [visit] nest once around the
    ring, deeper than the recursion limit of the interpreter allows, and
    the script ends with [RecursionError]. *)
Lemma ring_of_tables_raises :
  Resolver.resolve (Examples.ring 1000) Resolver.default_recursion_limit
  = Raise RecursionError.
Proof.
  apply RingFacts.ring_raises.
  - apply Nat.lt_0_succ.
  - apply le_n.
Qed.

(** C7 (two-table cycle).  On the graph in which [a] references [b] and [b]
    references [a], whatever the iteration order of the sets and as soon
    as the interpreter allows three nested calls, the resolver returns
    the order [b], [a], each table once, and reports one cycle: the list
    [a], [b], [a], [a].  The path segment [a], [b], [a] is closed by a
    second copy of its last node, because [visit] receives a stack that
    already ends with the node and appends the node again. *)
Theorem two_table_cycle `{HashOrder} (limit : nat) :
  ∃ s, Resolver.resolve Examples.graph_ab (3 + limit) = Ok s ∧
       Resolver.resolved s = ["b"; "a"] ∧
       Resolver.cycle_report s = [["a"; "b"; "a"; "a"]] ∧
       count "a" (Resolver.resolved s) = 1 ∧ count "b" (Resolver.resolved s) = 1.
Proof.
  rewrite (OrderFacts.resolve_order_irrel _ canonical_order).
  pose proof (ResolverFacts.resolve_cases (H:=canonical_order) Examples.graph_ab 3)
    as Hc.
  destruct (@Resolver.resolve canonical_order Examples.graph_ab 3) as [s|e] eqn:Hs;
    [|vm_compute in Hs; discriminate Hs].
  destruct Hc as (_ & _ & Hmono). exists s. split; [apply Hmono; lia|].
  vm_compute in Hs. injection Hs as <-. split_and!; reflexivity.
Qed.

Section assignor_claims.
Import Splitter SplitterSpec SplitterFacts.

(** C3 (budget respect).  In every run of the assignor, over any order and
    any table files, the accumulated line count of every group, the
    catch-all [misc] included, is at most [LINE_LIMIT] = 600 after the
    tables processed so far and after any further placement; a block that
    does not fit the catch-all, the last group, is never written there:
    the loop raises [SystemExit] naming the table.  When the run itself is
    aborted, it is by that exit. *)
Theorem budget_respected (extracted : gmap string string) (order : list string)
    (w : files) :
  LINE_LIMIT = 600 ∧ last GROUP_ORDER = Some "misc" ∧
  match for_tables extracted order initial_groups w with
  | (Ok st, _) =>
      within_budget st ∧
      (∀ group block st', placed_in group block st st' → within_budget st') ∧
      (∀ table block w1, ¬ fits st "misc" block →
         place (length GROUP_ORDER) table block (length GROUP_ORDER - 1) st w1
         = (Raise (SystemExit (exit_message table)), w1))
  | (Raise e, _) => ∃ table, table ∈ order ∧ e = SystemExit (exit_message table)
  end.
Proof.
  split_and!; [done|done|].
  destruct (for_tables_outcome extracted order initial_groups w
              (initial_groups_sound extracted))
    as [(st & w' & Heq)|(o1 & t & o2 & st1 & w1 & w' & -> & _ & _ & Heq)];
    rewrite Heq.
  - pose proof (for_tables_sound _ _ _ _ _ _ (initial_groups_sound extracted) Heq)
      as Hs.
    split_and!.
    + apply Hs.
    + intros group block st' Hpl. eapply placed_in_budget; [done|apply Hs].
    + intros table block w1 Hnf.
      destruct (place_spec table block (length GROUP_ORDER)
                  (length GROUP_ORDER - 1) st w1 (sound_keyed _ _ Hs))
        as [(j & g & st' & Hj & Hg & _ & Hpl & _)|[_ ->]];
        [rewrite GROUP_ORDER_length; lia..| |].
      * assert (j = 3) as ->.
        { apply lookup_lt_Some in Hg. rewrite GROUP_ORDER_length in *. lia. }
        injection Hg as <-. destruct Hnf.
        apply write_group_content_true in Hpl as (n & body & ? & ? & _).
        by exists n.
      * replace (length GROUP_ORDER - 1 - (length GROUP_ORDER - 1)) with 0 by lia.
        by rewrite logged_0.
  - exists t. split; [set_solver|done].
Qed.

(** C4, as amended.  [main] of the assignor raises if and only if the
    loop reaches a table whose block fits no group from its preferred
    group up to and including the last one, and what it raises is
    [SystemExit] with the message [Line limit reached for all groups
    while placing] followed by the name of this table.  The other
    conditions do not abort.  A cycle is reported: when the resolver
    returns, its cycle report is empty exactly when the graph has no
    cycle, every entry is a cycle of the graph, and the report file ends
    with the section [Cycles detected:], one line per entry.  A table that
    is referenced without being a node enters the order.  A table without
    a file or without a structural statement is passed over: the groups,
    the seeds, the log and the files stay as they are, so that nothing
    reports it.  The resolver itself raises only [RecursionError], and
    only on a graph with at least as many nodes as the interpreter allows
    nested calls. *)
Theorem abort_iff_unplaceable `{HashOrder} (extracted : gmap string string)
    (order : list string) (w : files) :
  (∀ e w', main extracted order w = (Raise e, w') →
     ∃ o1 t o2 st w1,
       order = o1 ++ t :: o2 ∧
       for_tables extracted o1 initial_groups w = (Ok st, w1) ∧
       unplaceable extracted t st ∧
       e = SystemExit ("Line limit reached for all groups while placing " +:+ t)) ∧
  (∀ o1 t o2 st w1,
     order = o1 ++ t :: o2 →
     for_tables extracted o1 initial_groups w = (Ok st, w1) →
     unplaceable extracted t st →
     ∃ w', main extracted order w
           = (Raise (SystemExit
                       ("Line limit reached for all groups while placing " +:+ t)),
              w')) ∧
  (∀ limit graph,
     match Resolver.resolve graph limit with
     | Ok s =>
         (Resolver.cycle_report s = [] ↔ GraphSpec.acyclic graph) ∧
         Forall (GraphSpec.closed_path_twice graph) (Resolver.cycle_report s) ∧
         (∀ T D, GraphSpec.edge graph T D → D ∈ Resolver.resolved s)
     | Raise e => e = RecursionError ∧ limit ≤ size (dom graph)
     end) ∧
  (∀ limit parse_fks listing,
     match Resolver.resolve (Resolver.build_graph parse_fks listing) limit with
     | Ok s =>
         Resolver.main parse_fks limit listing
         = Ok (Resolver.resolved s,
               "Dependency order (parent -> child):" +:+ nl
               +:+ Resolver.report_order (Resolver.build_graph parse_fks listing) 1
                     (Resolver.resolved s) +:+ nl
               +:+ match Resolver.cycle_report s with
                   | [] => "No cycles detected." +:+ nl
                   | cycles =>
                       "Cycles detected:" +:+ nl
                       +:+ String.concat ""
                             ((λ cycle, join " -> " cycle +:+ nl) <$> cycles)
                   end)
     | Raise e => Resolver.main parse_fks limit listing = Raise e
     end) ∧
  (∀ table st w1,
     extracted !! table = None ∨
     (∃ text, extracted !! table = Some text ∧ ddl_block_of text = None) →
     process_table extracted table st w1 = (Ok st, w1)).
Proof.
  split_and!.
  - intros e w' Hmain.
    destruct (for_tables_outcome extracted order initial_groups w
                (initial_groups_sound extracted))
      as [(st & w1 & Heq)|(o1 & t & o2 & st1 & w1 & w2 & -> & H1 & Hun & Heq)].
    + exfalso. unfold main in Hmain. rewrite (bind_ok _ _ _ _ _ Heq) in Hmain.
      pose proof (for_tables_sound _ _ _ _ _ _ (initial_groups_sound extracted)
                    Heq) as Hs.
      destruct (write_outputs_spec st w1 (sound_keyed _ _ Hs))
        as (c & p & s & m & _ & _ & _ & _ & Hw). congruence.
    + unfold main in Hmain. rewrite (bind_raise _ _ _ _ _ Heq) in Hmain.
      injection Hmain as <- <-. by exists o1, t, o2, st1, w1.
  - intros o1 t o2 st w1 -> H1 Hun.
    destruct (for_tables_abort extracted o1 t o2 _ _ _ _
                (initial_groups_sound extracted) H1 Hun) as [w' Heq].
    exists w'. unfold main. by rewrite (bind_raise _ _ _ _ _ Heq).
  - intros limit graph.
    pose proof (ResolverFacts.resolve_cases graph limit) as Hc.
    destruct (Resolver.resolve graph limit) as [s|e] eqn:Hs; [|done].
    split_and!.
    + by apply (ResolverMore.resolve_acyclic graph limit).
    + by apply (ResolverMore.resolve_paths graph limit).
    + intros T D He.
      apply (ResolverMore.resolve_contents graph limit s Hs). right. eauto.
  - intros limit parse_fks listing. unfold Resolver.main.
    destruct (Resolver.resolve (Resolver.build_graph parse_fks listing) limit)
      as [s|e]; [|done].
    simpl. unfold Resolver.report_text, Resolver.report_cycles.
    by destruct (Resolver.cycle_report s).
  - intros table st w1 [Hn|(text & Ht & Hb)].
    + by apply process_table_absent.
    + by eapply process_table_no_ddl.
Qed.

(** C5 (cascade monotonicity).  For every table that the assignor
    processes, in any state [st] that the loop has reached, the first
    group tried is the preferred one, at position [p] of [GROUP_ORDER]:
    the first group of [GROUPS] whose list has the table, and the
    catch-all [misc], the last position, when no list has it.  From there
    the candidate only moves forward: the block is written to the first
    group at a position [j ≥ p] that it fits, all groups at positions
    [p ≤ k < j] having refused it, and the log receives the lines of the
    moves [p → p+1 → ... → j], in this order; if no group from [p] on
    takes the block, the run is aborted.  No group before [p] is
    touched. *)
Theorem cascade_forward (extracted : gmap string string) (done : list string)
    (table text block : string) (st : groups) (w0 w : files) :
  for_tables extracted done initial_groups w0 = (Ok st, w) →
  extracted !! table = Some text → ddl_block_of text = Some block →
  ∃ p,
    index (assign_group table) GROUP_ORDER = Some p ∧ p < length GROUP_ORDER ∧
    ((∃ pools1 pool pools2,
         GROUPS = pools1 ++ (assign_group table, pool) :: pools2 ∧
         table ∈ pool ∧ ∀ g' pool', (g', pool') ∈ pools1 → table ∉ pool')
     ∨ ((∀ g' pool', (g', pool') ∈ GROUPS → table ∉ pool') ∧
        assign_group table = "misc" ∧ p = length GROUP_ORDER - 1)) ∧
    (∀ g, GROUP_ORDER !! p = Some g → fits st g block →
       ∃ st', placed_in g block st st' ∧
         process_table extracted table st w
         = (Ok (collect_seeds table
                  (List.filter is_insert (split_statements text)) st'), w)) ∧
    ((∃ j g st',
         p ≤ j ∧ GROUP_ORDER !! j = Some g ∧
         (∀ k gk, p ≤ k < j → GROUP_ORDER !! k = Some gk → ¬ fits st gk block) ∧
         placed_in g block st st' ∧
         process_table extracted table st w
         = (Ok (collect_seeds table
                  (List.filter is_insert (split_statements text)) st'),
            logged table p (j - p) w))
     ∨ ((∀ k gk, p ≤ k → GROUP_ORDER !! k = Some gk → ¬ fits st gk block) ∧
        process_table extracted table st w
        = (Raise (SystemExit (exit_message table)),
           logged table p (length GROUP_ORDER - 1 - p) w))).
Proof.
  intros Hreach Ht Hb.
  pose proof (for_tables_sound _ _ _ _ _ _ (initial_groups_sound extracted)
                Hreach) as Hs.
  assert (Hcases :
    ∃ p, index (assign_group table) GROUP_ORDER = Some p ∧
      ((∃ j g st',
         p ≤ j ∧ GROUP_ORDER !! j = Some g ∧
         (∀ k gk, p ≤ k < j → GROUP_ORDER !! k = Some gk → ¬ fits st gk block) ∧
         placed_in g block st st' ∧
         process_table extracted table st w
         = (Ok (collect_seeds table
                  (List.filter is_insert (split_statements text)) st'),
            logged table p (j - p) w))
       ∨ ((∀ k gk, p ≤ k → GROUP_ORDER !! k = Some gk → ¬ fits st gk block) ∧
          process_table extracted table st w
          = (Raise (SystemExit (exit_message table)),
             logged table p (length GROUP_ORDER - 1 - p) w)))).
  { destruct (process_table_cases extracted table st w (sound_keyed _ _ Hs))
      as [[_ [?|(text' & ? & ?)]]
         |[(text' & block' & p & j & g & st' & ? & ? & Hp & ? & ? & ? & ? & ?)
          |[(text' & block' & p' & ? & ? & Hp' & Hnone) (p & Hp & ?)]]];
      simplify_eq.
    - eexists. split; [done|]. left. by exists j, g, st'.
    - eexists. split; [done|]. by right. }
  destruct Hcases as (p & Hp & Hcases). exists p.
  split_and!; [done|by eapply index_lt| | |done].
  - unfold assign_group in *.
    destruct (assign_group_in_cases GROUPS table)
      as [(pools1 & g & pool & pools2 & HG & ? & ? & Hg)|[Hnone Hg]].
    + left. exists pools1, pool, pools2. by rewrite Hg.
    + right. split_and!; [done|done|]. rewrite Hg in Hp.
      vm_compute in Hp. injection Hp as <-. reflexivity.
  - intros g Hg Hfit.
    destruct Hcases as [(j & gj & st' & Hj & Hgj & Hnone & Hpl & Heq)|[Hnone _]].
    + destruct (decide (j = p)) as [->|Hne].
      * simplify_eq. exists st'. split; [done|].
        rewrite Heq. replace (p - p) with 0 by lia. by rewrite logged_0.
      * destruct (Hnone p g); [lia|done|done].
    + destruct (Hnone p g); [lia|done|done].
Qed.

(** C8 (seed isolation).  For every input on which [main] returns, the
    seed file is its header followed by statements separated by blank
    lines, each of which is an insertion statement, is not a structural
    statement, and is a statement of the file of a table on the seed
    allow-list; read back with [split_statements], the seed file has no
    structural statement.  Each group file is either the placeholder
    comment or statements of the table files separated by blank lines,
    each of which is a structural statement and is not an insertion
    statement; read back with [split_statements], a group file has no
    insertion statement.  The insertion statements of a table that is not
    on the allow-list are dropped: processing it leaves the seed
    collection as it was, and raises nothing but the exit of a failed
    placement. *)
Theorem seed_isolation (extracted : gmap string string) (order : list string)
    (w : files) :
  match main extracted order w with
  | (Ok _, w') =>
      (∃ stmts,
          output_files w' !! "10_seed_production.sql"
          = Some (seed_header +:+ join blank_line stmts) ∧
          Forall (seed_statement extracted) stmts ∧
          ∀ s, s ∈ split_statements (seed_header +:+ join blank_line stmts) →
               is_ddl s = false) ∧
      (∀ g path, (g, path) ∈ OUTPUT_FILES → g ≠ "seed" →
         ∃ body, output_files w' !! path = Some (group_file_text g body) ∧
                 structural_text extracted body ∧
                 ∀ s, s ∈ split_statements (group_file_text g body) →
                      is_insert s = false)
  | (Raise e, _) => ∃ table, table ∈ order ∧ e = SystemExit (exit_message table)
  end ∧
  (∀ done table, table ∉ ALLOWED_SEED_TABLES →
     match for_tables extracted done initial_groups w with
     | (Ok st, w1) =>
         match process_table extracted table st w1 with
         | (Ok st', _) => seeds st' = seeds st
         | (Raise e, _) => e = SystemExit (exit_message table)
         end
     | (Raise _, _) => True
     end).
Proof.
  split.
  - destruct (for_tables_appends extracted order initial_groups)
      as ([st|e] & delta & Hd).
    + destruct (main_ok extracted order st delta Hd)
        as (c & p & s & m & Hc & Hp & Hs & Hm & Hsound & ->).
      split.
      * exists (seeds st). split_and!; [|apply Hsound|].
        -- unfold written. simpl. by simplify_map_eq.
        -- intros x. apply seed_text_split with extracted. apply Hsound.
      * intros g path Hin Hg.
        assert (Hfile : ∃ body, group_contents st !! g = Some body ∧
                  output_files (written st c p s m (with_log delta w)) !! path
                  = Some (group_file_text g body)).
        { unfold OUTPUT_FILES in Hin.
          repeat (apply elem_of_cons in Hin as [[= -> ->]|Hin]);
            [..|done|by apply elem_of_nil in Hin].
          - exists c. split; [done|]. unfold written. simpl. by simplify_map_eq.
          - exists p. split; [done|]. unfold written. simpl. by simplify_map_eq.
          - exists s. split; [done|]. unfold written. simpl. by simplify_map_eq.
          - exists m. split; [done|]. unfold written. simpl. by simplify_map_eq. }
        destruct Hfile as (body & Hbody & Hfile). exists body.
        pose proof (sound_contents _ _ Hsound g body Hbody) as Htext.
        split_and!; [done|done|].
        intros x. by apply group_file_text_split with extracted path.
    + rewrite (main_raise extracted order e delta Hd).
      destruct (for_tables_outcome extracted order initial_groups w
                  (initial_groups_sound extracted))
        as [(st & w' & Heq)|(o1 & t & o2 & st1 & w1 & w' & -> & _ & _ & Heq)];
        rewrite Hd in Heq; simplify_eq.
      exists t. split; [set_solver|done].
  - intros done table Hna.
    destruct (for_tables extracted done initial_groups w) as [[st|e] w1] eqn:Heq;
      [|done].
    pose proof (for_tables_sound _ _ _ _ _ _ (initial_groups_sound extracted) Heq)
      as Hs.
    destruct (process_table_cases extracted table st w1 (sound_keyed _ _ Hs))
      as [[-> _]|[(text & block & p & j & g & st1 & _ & _ & _ & _ & _ & _ & Hpl
                   & ->)|[_ (p & _ & ->)]]]; [done| |done].
    rewrite collect_seeds_seeds, decide_False by done.
    by eapply placed_in_seeds.
Qed.

(** C6 (reassignment log).  A run of the script on two tables of the core
    group, 400 lines each, in the order [roles], [users]: the block of
    [users] does not fit [core] after [roles] and moves to [project], one
    cascade.  The run returns; what was in the log before is gone; the log
    holds the line [Exceeded 600 lines in core, moving users to project]
    twice, once for each of the two calls of [main] that the script
    makes, and does not hold the line that [log_reassignment] would write
    for the move. *)
Theorem log_after_script :
  (script Examples.two_core_tables ["roles"; "users"] Examples.stale_files).1
  = Ok () ∧
  log_file
    (script Examples.two_core_tables ["roles"; "users"] Examples.stale_files).2
  = "Exceeded 600 lines in core, moving users to project" +:+ nl
    +:+ "Exceeded 600 lines in core, moving users to project" +:+ nl ∧
  log_file (log_reassignment "users" "core" "project" Examples.empty_files).2
  = "Table users moved from core to project" +:+ nl ∧
  log_file
    (script Examples.two_core_tables ["roles"; "users"] Examples.stale_files).2
  ≠ "Table users moved from core to project" +:+ nl.
Proof. split_and!; [by vm_compute..|]. vm_compute. intros [=]. Qed.

End assignor_claims.

Lemma cascade_forward_witness :
  ∃ p, index (Splitter.assign_group "users") Splitter.GROUP_ORDER = Some p ∧
       p < length Splitter.GROUP_ORDER.
Proof.
  destruct (cascade_forward Examples.two_core_tables ["roles"] "users"
              (Examples.create_table "users" 399)
              (Examples.create_table "users" 399)
              (Examples.state_after Examples.two_core_tables ["roles"])
              Examples.empty_files
              (Examples.files_after Examples.two_core_tables ["roles"]))
    as (p & Hp & Hlt & _).
  - vm_compute. reflexivity.
  - reflexivity.
  - vm_compute. reflexivity.
  - exists p. split; [exact Hp|exact Hlt].
Defined.

(** C9 (determinism).  Two runs of the two scripts on the same directory
    of table files, under the same interpreter, have the same outcome:
    whatever the order in which each run's directory listing enumerates
    the files and whatever the order in which each run iterates over its
    sets.  When the resolver returns, the two runs give the same Resolved
    Order, the same report, the same result of the splitting script, the
    same log and the same five output files, byte for byte, whatever was
    on disk before each run.  When the resolver raises, which it does in
    both runs or in none, neither run writes the log or an output file. *)
Theorem pipeline_deterministic (H1 H2 : HashOrder) (limit : nat)
    (parse_fks : string → gset string) (extracted : gmap string string)
    (listing1 listing2 : list (string * string)) (w1 w2 : Splitter.files) :
  listing1 ≡ₚ map_to_list extracted → listing2 ≡ₚ map_to_list extracted →
  @Pipeline.run H1 limit parse_fks extracted listing1 w1
  = @Pipeline.run H2 limit parse_fks extracted listing2 w1 ∧
  match @Resolver.main H1 parse_fks limit listing1 with
  | Ok _ =>
      @Pipeline.run H1 limit parse_fks extracted listing1 w1
      = @Pipeline.run H2 limit parse_fks extracted listing2 w2
  | Raise e =>
      e = RecursionError ∧
      @Pipeline.run H2 limit parse_fks extracted listing2 w2
      = {| Pipeline.resolver_result := Raise e;
           Pipeline.splitter_result := None;
           Pipeline.final_log := Splitter.log_file w2;
           Pipeline.final_outputs := SplitterSpec.output_texts w2 |}
  end.
Proof.
  intros Hl1 Hl2. unfold Pipeline.run.
  rewrite (OrderFacts.main_order_irrel H1 H2 parse_fks extracted listing1 listing2)
    by done.
  split; [done|].
  destruct (@Resolver.main H2 parse_fks limit listing2) as [[order report]|e] eqn:Hmain.
  - destruct (SplitterFacts.script_independent extracted order)
      as (r & log & outs & Hind).
    destruct (Hind w1) as (Hr1 & Hlog1 & Hout1).
    destruct (Hind w2) as (Hr2 & Hlog2 & Hout2).
    destruct (Splitter.script extracted order w1) as [r1 w1'].
    destruct (Splitter.script extracted order w2) as [r2 w2'].
    simpl in *. congruence.
  - split; [|done]. unfold Resolver.main in Hmain.
    destruct (@Resolver.resolve H2 (Resolver.build_graph parse_fks listing2) limit)
      as [s|e'] eqn:Hs; [done|].
    simpl in Hmain. injection Hmain as <-.
    by destruct (ResolverFacts.resolve_Raise _ _ _ Hs).
Qed.

Lemma pipeline_deterministic_witness :
  @Pipeline.run canonical_order Resolver.default_recursion_limit
     Examples.references_roles
     Examples.two_core_tables (map_to_list Examples.two_core_tables)
     Examples.stale_files
  = @Pipeline.run OrderSpec.reversed_order Resolver.default_recursion_limit
      Examples.references_roles
      Examples.two_core_tables (reverse (map_to_list Examples.two_core_tables))
      Examples.empty_files.
Proof.
  destruct (pipeline_deterministic canonical_order OrderSpec.reversed_order
              Resolver.default_recursion_limit
              Examples.references_roles Examples.two_core_tables
              (map_to_list Examples.two_core_tables)
              (reverse (map_to_list Examples.two_core_tables))
              Examples.stale_files Examples.empty_files)
    as [_ Hrun].
  - reflexivity.
  - apply reverse_Permutation.
  - destruct (@Resolver.main canonical_order Examples.references_roles
                Resolver.default_recursion_limit
                (map_to_list Examples.two_core_tables)) as [o|e] eqn:Hmain.
    + exact Hrun.
    + vm_compute in Hmain. discriminate Hmain.
Defined.

(** C10, as amended.  For every table, on the seed allow-list or not,
    whose file has no statement that begins with [CREATE TABLE]: the
    assignor passes over the table before it collects seeds, in any
    state, so that the run is the run without the table and none of its
    insertion statements is collected.  The table stays out of the
    dependency graph when, moreover, the text of its file nowhere contains
    [CREATE TABLE], which is what the resolver tests. *)
Theorem no_structural_statement_no_seed (extracted : gmap string string)
    (table text : string) :
  extracted !! table = Some text →
  List.filter Splitter.is_ddl (Splitter.split_statements text) = [] →
  (∀ st w, Splitter.process_table extracted table st w = (Ok st, w)) ∧
  (∀ o1 o2 st w,
     Splitter.for_tables extracted (o1 ++ table :: o2) st w
     = Splitter.for_tables extracted (o1 ++ o2) st w) ∧
  (contains "CREATE TABLE" text = false →
   ∀ parse_fks listing, listing ≡ₚ map_to_list extracted →
     table ∉ dom (Resolver.build_graph parse_fks listing)).
Proof.
  intros Ht Hnone.
  assert (Hskip : ∀ st w, Splitter.process_table extracted table st w = (Ok st, w)).
  { intros st w. eapply SplitterFacts.process_table_no_ddl; [done|].
    by apply SplitterFacts.ddl_block_of_None. }
  split_and!; [done| |].
  - intros o1 o2 st w. rewrite !SplitterFacts.for_tables_app.
    unfold Splitter.bind.
    destruct (Splitter.for_tables extracted o1 st w) as [[st1|e] w1]; [|done].
    rewrite SplitterFacts.for_tables_cons.
    by rewrite (SplitterFacts.bind_ok _ _ _ _ _ (Hskip st1 w1)).
  - intros Hc parse_fks listing Hl Hin. apply elem_of_dom in Hin as [deps Hd].
    rewrite (OrderFacts.build_graph_listing parse_fks extracted) in Hd by done.
    unfold OrderSpec.graph_entry in Hd. by rewrite Ht, Hc in Hd.
Qed.

Lemma no_structural_statement_no_seed_witness :
  (∀ st w, Splitter.process_table Examples.seed_only "roles" st w = (Ok st, w)) ∧
  (∀ o1 o2 st w,
     Splitter.for_tables Examples.seed_only (o1 ++ "roles" :: o2) st w
     = Splitter.for_tables Examples.seed_only (o1 ++ o2) st w) ∧
  (contains "CREATE TABLE" "INSERT INTO `roles` VALUES (1);" = false →
   ∀ parse_fks listing, listing ≡ₚ map_to_list Examples.seed_only →
     "roles" ∉ dom (Resolver.build_graph parse_fks listing)).
Proof.
  apply (no_structural_statement_no_seed Examples.seed_only "roles"
           "INSERT INTO `roles` VALUES (1);").
  - reflexivity.
  - vm_compute. reflexivity.
Defined.

(** C10, as stated, fails: the file of [roles], a table of the seed
    allow-list, holds one insertion statement and no structural statement,
    and [roles] is a node of the dependency graph all the same, because
    the inserted text contains [CREATE TABLE]. *)
Lemma insert_only_table_enters_graph :
  "roles" ∈ Splitter.ALLOWED_SEED_TABLES ∧
  List.filter Splitter.is_insert (Splitter.split_statements Examples.insert_only)
  = [Examples.insert_only] ∧
  List.filter Splitter.is_ddl (Splitter.split_statements Examples.insert_only)
  = [] ∧
  (∀ parse_fks,
     "roles" ∈ dom (Resolver.build_graph parse_fks
                      [("roles", Examples.insert_only)])).
Proof.
  split_and!.
  - by vm_compute.
  - by vm_compute.
  - by vm_compute.
  - intros parse_fks. apply elem_of_dom. exists (parse_fks Examples.insert_only).
    unfold Resolver.build_graph. simpl.
    replace (contains "CREATE TABLE" Examples.insert_only) with true
      by (by vm_compute).
    apply lookup_insert_eq.
Qed.

(** C4, as stated, fails: a run of the two scripts on a directory whose
    only file, [roles.sql], has one insertion statement and no structural
    statement.  The resolver lists [roles] like any table, the splitting
    script returns, the log stays empty, and the five output files hold
    their placeholder or header line: the table without structural block
    is passed over, and nothing reports it. *)
Lemma table_without_block_not_reported :
  List.filter Splitter.is_ddl (Splitter.split_statements Examples.insert_only)
  = [] ∧
  @Pipeline.run canonical_order Resolver.default_recursion_limit
    Examples.references_roles {["roles" := Examples.insert_only]}
    [("roles", Examples.insert_only)] Examples.empty_files
  = {| Pipeline.resolver_result :=
         Ok (["roles"],
             "Dependency order (parent -> child):" +:+ nl
             +:+ "01. roles -> depends on none" +:+ nl
             +:+ nl
             +:+ "No cycles detected." +:+ nl);
       Pipeline.splitter_result := Some (Ok ());
       Pipeline.final_log := "";
       Pipeline.final_outputs :=
         [Some ("-- core schema pending" +:+ nl);
          Some ("-- project schema pending" +:+ nl);
          Some ("-- support schema pending" +:+ nl);
          Some ("-- misc schema pending" +:+ nl);
          Some ("-- Seed file (DDL stripped)" +:+ nl)] |}.
Proof. split; vm_compute; reflexivity. Qed.

(** * Further properties *)

Section resolver_extras.
Import Resolver ResolverSpec ResolverFacts GraphSpec ResolverMore.

(** X1 (contents of the Resolved Order).  For every dependency graph, the
    order that the resolver returns has no repeated entry, and its entries
    are exactly the tables that occur in the graph: the nodes, and also
    every table that a node references without being a node itself.  The
    resolver returns unless the graph has at least as many nodes as the
    interpreter allows nested calls; what it raises then is
    [RecursionError]. *)
Theorem resolved_order_contents `{HashOrder} (limit : nat)
    (graph : gmap string (gset string)) :
  match resolve graph limit with
  | Ok s => NoDup (resolved s) ∧ ∀ t, t ∈ resolved s ↔ occurs graph t
  | Raise e => e = RecursionError ∧ limit ≤ size (dom graph)
  end.
Proof.
  destruct (resolve graph limit) as [s|e] eqn:Hs.
  - by apply (resolve_contents graph limit).
  - by apply resolve_Raise.
Qed.

(** X2 (reported cycles).  Every cycle that the resolver reports is a path
    of the graph that leads from a node back to itself, each entry being a
    dependency of the entry before it, followed by one more copy of that
    node. *)
Theorem reported_cycles_are_paths `{HashOrder} (limit : nat)
    (graph : gmap string (gset string)) :
  match resolve graph limit with
  | Ok s => Forall (closed_path_twice graph) (cycle_report s)
  | Raise e => e = RecursionError ∧ limit ≤ size (dom graph)
  end.
Proof.
  destruct (resolve graph limit) as [s|e] eqn:Hs.
  - by apply (resolve_paths graph limit).
  - by apply resolve_Raise.
Qed.

(** X3 (cycle detection is exact).  The resolver reports no cycle if and
    only if the graph has none; and then every dependency stands before
    the table that references it. *)
Theorem no_cycle_reported_iff_acyclic `{HashOrder} (limit : nat)
    (graph : gmap string (gset string)) :
  match resolve graph limit with
  | Ok s =>
      (cycle_report s = [] ↔ acyclic graph) ∧
      (cycle_report s = [] →
       ∀ T D, edge graph T D → before D T (resolved s))
  | Raise e => e = RecursionError ∧ limit ≤ size (dom graph)
  end.
Proof.
  destruct (resolve graph limit) as [s|e] eqn:Hs; [|by apply resolve_Raise].
  destruct (resolve_Ok graph limit s Hs) as [Hinv Hall].
  split; [by apply (resolve_acyclic graph limit)|].
  intros Hnone T D He. by apply (path_positions graph s Hinv Hall Hnone [] T D),
    is_path_cons.
Qed.

(** X12 (the validator's duplicate check).  [count_tables] of the
    validator, applied to an order that the resolver wrote, finds no
    duplicate, whatever the graph was; the tables it counts are the nodes
    of the graph together with the tables that the nodes reference. *)
Theorem count_tables_of_resolved_order `{HashOrder} (limit : nat)
    (graph : gmap string (gset string)) :
  match resolve graph limit with
  | Ok s =>
      (Validator.count_tables (Some (resolved s))).2 = ∅ ∧
      ∀ t, t ∈ (Validator.count_tables (Some (resolved s))).1 ↔ occurs graph t
  | Raise e => e = RecursionError ∧ limit ≤ size (dom graph)
  end.
Proof.
  destruct (resolve graph limit) as [s|e] eqn:Hs; [|by apply resolve_Raise].
  destruct (resolve_contents graph limit s Hs) as [Hnd Hocc].
  split.
  - simpl. assert (List.filter (λ table, 1 <? count table (resolved s))
                     (resolved s) = []) as ->; [|done].
    apply elem_of_nil_inv. intros t [Ht Hc]%list_elem_of_In%filter_In.
    apply list_elem_of_In in Ht. rewrite (count_NoDup t _ Hnd Ht) in Hc. done.
  - intros t. simpl. by rewrite elem_of_list_to_set.
Qed.

End resolver_extras.

Section graph_extras.
Import Resolver SplitterMore.

(** X13 (nodes of the graph).  Whatever the order in which the directory
    is listed, a table is a node of the dependency graph exactly when the
    text of its file contains [CREATE TABLE] somewhere, in these very
    letters, and its dependencies are then what [parse_fks] finds in that
    text. *)
Theorem graph_nodes (parse_fks : string → gset string)
    (extracted : gmap string string) (listing : list (string * string))
    (table : string) :
  listing ≡ₚ map_to_list extracted →
  (table ∈ dom (build_graph parse_fks listing) ↔
   ∃ text a b, extracted !! table = Some text ∧
               text = a +:+ "CREATE TABLE" +:+ b) ∧
  (∀ deps, build_graph parse_fks listing !! table = Some deps →
     ∃ text, extracted !! table = Some text ∧ deps = parse_fks text).
Proof.
  intros Hl.
  pose proof (OrderFacts.build_graph_listing parse_fks extracted listing table Hl)
    as Hentry.
  unfold OrderSpec.graph_entry in Hentry. split.
  - rewrite elem_of_dom, Hentry.
    destruct (extracted !! table) as [text|].
    + destruct (contains "CREATE TABLE" text) eqn:Hc.
      * apply contains_spec in Hc as (a & b & Hab). split; [|eauto].
        intros _. by exists text, a, b.
      * split; [by intros [? [=]]|]. intros (text' & a & b & [= <-] & Hab).
        assert (contains "CREATE TABLE" text = true) by (apply contains_spec; eauto).
        congruence.
    + split; [by intros [? [=]]|]. by intros (text' & a & b & [=] & _).
  - intros deps. rewrite Hentry. destruct (extracted !! table) as [text|]; [|done].
    destruct (contains "CREATE TABLE" text); [|done]. intros [= <-]. eauto.
Qed.

End graph_extras.

Lemma graph_nodes_witness :
  ("users" ∈ dom (Resolver.build_graph Examples.references_roles
                    (map_to_list Examples.two_core_tables)) ↔
   ∃ text a b, Examples.two_core_tables !! "users" = Some text ∧
               text = a +:+ "CREATE TABLE" +:+ b) ∧
  (∀ deps,
     Resolver.build_graph Examples.references_roles
       (map_to_list Examples.two_core_tables) !! "users" = Some deps →
     ∃ text, Examples.two_core_tables !! "users" = Some text ∧
             deps = Examples.references_roles text).
Proof.
  apply (graph_nodes Examples.references_roles Examples.two_core_tables
           (map_to_list Examples.two_core_tables) "users").
  reflexivity.
Defined.

Section splitter_extras.
Import Splitter SplitterSpec SplitterFacts CoverageSpec SplitterMore.

(** X4 (statements).  Every statement that [split_statements] returns is
    not empty, has no white space at either end, and ends at its first
    terminator if it has one; split again, it comes back alone and
    unchanged. *)
Theorem split_statements_statements (text : string) :
  Forall (λ s, s ≠ "" ∧ strip s = s ∧ one_statement s ∧
               split_statements s = [s])
         (split_statements text).
Proof.
  apply Forall_forall. intros s Hs.
  destruct (split_statements_stripped text s Hs) as [Hne Hstrip].
  pose proof (split_statements_one_statement text s Hs) as Hone.
  split_and!; [done..|]. by apply split_statements_single.
Qed.

(** X5 (recognition of statements).  No statement is both a structural and
    an insertion statement, and neither test depends on the case of the
    letters or on white space in front of the statement. *)
Theorem statement_tests (s ws : string) :
  (is_ddl s = true → is_insert s = false) ∧
  is_ddl (upper s) = is_ddl s ∧ is_insert (upper s) = is_insert s ∧
  (blank ws → is_ddl (ws +:+ s) = is_ddl s ∧ is_insert (ws +:+ s) = is_insert s).
Proof.
  split_and!.
  - apply is_ddl_not_insert.
  - unfold is_ddl. by rewrite lstrip_upper, upper_idemp.
  - unfold is_insert. by rewrite lstrip_upper, upper_idemp.
  - intros Hws. unfold is_ddl, is_insert. by rewrite lstrip_app_blank.
Qed.

(** X6 (total coverage).  When [main] returns, the structural blocks of
    the tables of the order are distributed over the four group files:
    each file is the placeholder or the blocks placed in its group joined
    by blank lines; within a group the blocks stand in the order of the
    Resolved Order; and every block, counted with its multiplicity in the
    order, is in exactly one group. *)
Theorem every_block_in_one_group (extracted : gmap string string)
    (order : list string) (w : files) :
  match main extracted order w with
  | (Ok _, w') =>
      ∃ placed : string → list string,
        (∀ g path, (g, path) ∈ OUTPUT_FILES → g ≠ "seed" →
           output_files w' !! path
           = Some (group_file_text g (join blank_line (placed g)))) ∧
        (∀ g, placed g `sublist_of` blocks_of extracted order) ∧
        mjoin (placed <$> GROUP_ORDER) ≡ₚ blocks_of extracted order
  | (Raise _, _) => True
  end.
Proof.
  destruct (for_tables_appends extracted order initial_groups)
    as ([st|e] & delta & Hd); [|by rewrite (main_raise _ _ _ _ Hd)].
  destruct (main_ok extracted order st delta Hd)
    as (c & p & s & m & Hc & Hp & Hs & Hm & _ & ->).
  destruct (for_tables_accounted extracted order initial_groups w st _ (λ _, [])
              (initial_groups_sound extracted) initial_groups_accounted (Hd w))
    as (new & Hnew & Hsub & Hperm & _).
  exists new. split_and!; [|done..].
  intros g path Hin Hg. unfold OUTPUT_FILES in Hin.
  repeat (apply elem_of_cons in Hin as [[= -> ->]|Hin]);
    [..|done|by apply elem_of_nil in Hin].
  - destruct (Hnew "core") as (Hb & _); [set_solver|].
    rewrite Hc in Hb. injection Hb as ->. unfold written. simpl. by simplify_map_eq.
  - destruct (Hnew "project") as (Hb & _); [set_solver|].
    rewrite Hp in Hb. injection Hb as ->. unfold written. simpl. by simplify_map_eq.
  - destruct (Hnew "support") as (Hb & _); [set_solver|].
    rewrite Hs in Hb. injection Hb as ->. unfold written. simpl. by simplify_map_eq.
  - destruct (Hnew "misc") as (Hb & _); [set_solver|].
    rewrite Hm in Hb. injection Hb as ->. unfold written. simpl. by simplify_map_eq.
Qed.

(** X7 (the seed file).  When [main] returns, the seed file is its header
    followed by the insertion statements, joined by blank lines and in
    the order of the Resolved Order, of exactly those tables of the order
    that are on the allow-list and have a file with a structural
    statement; it does not depend on the groups in which the blocks
    landed. *)
Theorem seed_file_contents (extracted : gmap string string)
    (order : list string) (w : files) :
  match main extracted order w with
  | (Ok _, w') =>
      output_files w' !! "10_seed_production.sql"
      = Some (seed_header +:+ join blank_line (seeds_of extracted order))
  | (Raise _, _) => True
  end.
Proof.
  destruct (for_tables_appends extracted order initial_groups)
    as ([st|e] & delta & Hd); [|by rewrite (main_raise _ _ _ _ Hd)].
  destruct (main_ok extracted order st delta Hd)
    as (c & p & s & m & _ & _ & _ & _ & _ & ->).
  destruct (for_tables_accounted extracted order initial_groups w st _ (λ _, [])
              (initial_groups_sound extracted) initial_groups_accounted (Hd w))
    as (new & _ & _ & _ & Hseeds).
  unfold written. simpl. rewrite Hseeds. by simplify_map_eq.
Qed.

(** X8 (counted lines and lines of text).  In every state that the loop of
    [main] reaches, the text of a group is the blocks placed there joined
    by blank lines, and its counter is the sum over these blocks of the
    number of newlines plus one.  The separators are not counted: a
    group that holds [k ≥ 1] blocks has [k - 1] more lines of text than
    its counter says. *)
Theorem counted_lines_and_text_lines (extracted : gmap string string)
    (order : list string) (w : files) :
  match for_tables extracted order initial_groups w with
  | (Ok st, _) =>
      ∀ g, g ∈ GROUP_ORDER →
        ∃ blocks,
          group_contents st !! g = Some (join blank_line blocks) ∧
          group_lines st !! g = Some (sum_list (block_lines <$> blocks)) ∧
          (blocks ≠ [] →
           count_newlines (join blank_line blocks) + 1
           = sum_list (block_lines <$> blocks) + (length blocks - 1))
  | (Raise _, _) => True
  end.
Proof.
  destruct (for_tables extracted order initial_groups w) as [[st|e] w'] eqn:Hrun;
    [|done].
  destruct (for_tables_accounted extracted order initial_groups w st _ (λ _, [])
              (initial_groups_sound extracted) initial_groups_accounted Hrun)
    as (new & Hnew & _).
  intros g Hg. destruct (Hnew g Hg) as (Hc & Hl & _).
  exists (new g). split_and!; [done..|].
  intros Hne. pose proof (count_newlines_join (new g) Hne).
  destruct (new g); [done|]. simpl length in *. lia.
Qed.

(** X9 (the script runs [main] twice).  After [prepare_group_files] the
    script calls [main] two times.  When the first call returns, so does
    the second: the five output files end as the first call left them,
    and the log holds twice what the first call wrote to it.  When the
    first call raises, the script stops there with the same exception and
    the five output files are left empty. *)
Theorem script_is_main_twice (extracted : gmap string string)
    (order : list string) (w : files) :
  match main extracted order (prepared w) with
  | (Ok _, w1) =>
      ∃ w2, script extracted order w = (Ok (), w2) ∧
            log_file w2 = log_file w1 +:+ log_file w1 ∧
            output_texts w2 = output_texts w1
  | (Raise e, w1) =>
      script extracted order w = (Raise e, w1) ∧
      output_texts w1 = [Some ""; Some ""; Some ""; Some ""; Some ""]
  end.
Proof.
  destruct (for_tables_appends extracted order initial_groups)
    as ([st|e] & delta & Hd).
  - destruct (main_ok extracted order st delta Hd)
      as (c & p & s & m & Hc & Hp & Hs & Hm & _ & Hmain).
    destruct (script_ok extracted order st delta Hd)
      as (c' & p' & s' & m' & ? & ? & ? & ? & Hscript).
    simplify_eq. rewrite Hmain, Hscript. eexists. split; [done|].
    split; [done|]. by rewrite !output_texts_written.
  - rewrite (main_raise _ _ _ _ Hd), (script_raise _ _ _ _ Hd).
    split; [done|]. rewrite output_texts_with_log. apply output_texts_prepared.
Qed.

End splitter_extras.

Section extractor_extras.
Import Extractor ExtractorSpec ExtractorFacts.
Import Splitter SplitterSpec SplitterFacts SplitterMore.

(** X10 (what the extractor writes).  After a run of the extractor, the
    file of a table holds the header line followed by the blocks of the
    table joined by blank lines: the sanitized matches from the source
    files whose name does not start with [remove_], file after file, in
    each file the definitions before the insertions.  A table of
    [EXCLUDED_TABLES], and a table without a match, gets no file written:
    what the directory held for it before the run stays. *)
Theorem extractor_output
    (create_matches insert_matches : string → list (string * string))
    (listing : list (string * string)) (old : gmap string string)
    (table : string) :
  (∀ name text, (name, text) ∈ _sql_files listing ↔
                (name, text) ∈ listing ∧ startswith name "remove_" = false) ∧
  Extractor.main create_matches insert_matches listing old !! table
  = match (if decide (table ∈ EXCLUDED_TABLES) then []
           else blocks_for create_matches insert_matches
                  (_sql_files listing) table) with
    | [] => old !! table
    | blocks => Some (file_text table blocks)
    end.
Proof.
  split.
  - intros name text. unfold _sql_files.
    rewrite list_elem_of_In, filter_In, <- list_elem_of_In. simpl.
    rewrite orb_false_r, negb_true_iff. done.
  - unfold Extractor.main.
    destruct (collect_spec create_matches insert_matches (_sql_files listing))
      as [Hne Hl].
    specialize (Hl table). specialize (Hne table).
    rewrite lookup_union, map_lookup_imap.
    destruct (collect create_matches insert_matches (_sql_files listing) !! table)
      as [blocks|]; simpl in *.
    + rewrite <- Hl. destruct blocks; [done|]. by destruct (old !! table).
    + rewrite <- Hl. by destruct (old !! table).
Qed.

Lemma has_semicolon_app a b :
  has_semicolon (a +:+ b) = has_semicolon a || has_semicolon b.
Proof.
  induction a as [|c a IH]; [done|]. rewrite app_cons. simpl.
  by case_decide.
Qed.

Lemma filter_is_ddl_none l :
  Forall (headed seed_head) l → List.filter is_ddl l = [].
Proof.
  induction 1 as [|s l Hs Hl IH]; [done|]. simpl.
  by rewrite (headed_seed_not_ddl s Hs).
Qed.

Lemma header_piece table b :
  has_semicolon table = false → one_statement b →
  one_statement (header table +:+ b) ∧ headed seed_head (header table +:+ b).
Proof.
  intros Ht (u & Hu & Hb). split.
  - exists (header table +:+ u). split.
    + unfold header. rewrite !has_semicolon_app, Ht, Hu. done.
    + destruct Hb as [->| ->]; [by left|right]. by rewrite app_assoc_s.
  - unfold header. rewrite !app_assoc_s. by apply headed_app_l.
Qed.

(** X11 (the header hides the first block).  Take a table file as the
    extractor writes it, for a table whose name has no terminator: the
    header line, then a first block that is one statement, then any
    number of insertion statements.  The splitter finds no structural
    statement in it, whatever the first block is, and passes over the
    table: no group receives its definition and its rows do not reach the
    seed collection.  The resolver makes the table a node of the graph as
    soon as the first block contains [CREATE TABLE]. *)
Theorem header_hides_first_block (extracted : gmap string string)
    (table first : string) (rest : list string) :
  has_semicolon table = false → one_statement first →
  Forall (λ b, one_statement b ∧ is_insert b = true) rest →
  extracted !! table = Some (file_text table (first :: rest)) →
  List.filter is_ddl (split_statements (file_text table (first :: rest))) = [] ∧
  (∀ st w, process_table extracted table st w = (Ok st, w)) ∧
  (contains "CREATE TABLE" first = true →
   ∀ parse_fks listing, listing ≡ₚ map_to_list extracted →
     table ∈ dom (Resolver.build_graph parse_fks listing)).
Proof.
  intros Ht Hfirst Hrest Hfile.
  assert (Hnone : List.filter is_ddl
            (split_statements (file_text table (first :: rest))) = []).
  { apply filter_is_ddl_none.
    assert (Hpieces : file_text table (first :: rest)
              = String.concat ""
                  ((header table +:+ first)
                   :: match rest with
                      | [] => []
                      | _ => blank_line :: interleave blank_line rest
                      end)).
    { unfold file_text. destruct rest as [|b rest'].
      - reflexivity.
      - rewrite (join_cons blank_line first (b :: rest')) by done.
        rewrite <- (concat_interleave blank_line (b :: rest')).
        change (String.concat "" (?x :: ?y :: ?l))
          with (x +:+ "" +:+ String.concat "" (y :: l)).
        change (String.concat "" (blank_line :: interleave blank_line (b :: rest')))
          with (match interleave blank_line (b :: rest') with
                | [] => blank_line
                | _ => blank_line +:+ "" +:+
                       String.concat "" (interleave blank_line (b :: rest'))
                end).
        destruct (interleave blank_line (b :: rest')) eqn:Hi.
        + by destruct rest'.
        + by rewrite !app_assoc_s. }
    rewrite Hpieces. apply split_statements_pieces. constructor.
    - destruct (header_piece table first Ht Hfirst). split; [done|by right].
    - assert (Hint : Forall (λ p, one_statement p ∧ (blank p ∨ headed seed_head p))
                (interleave blank_line rest)).
      { apply Forall_interleave; [apply blank_line_piece|].
        eapply Forall_impl; [exact Hrest|]. intros b [Hone Hi].
        split; [done|]. right. by apply is_insert_headed. }
      destruct rest; [done|]. constructor; [apply blank_line_piece|done]. }
  split_and!; [done| |].
  - intros st w. eapply process_table_no_ddl; [done|].
    by apply ddl_block_of_None.
  - intros Hc parse_fks listing Hl. apply elem_of_dom.
    rewrite (OrderFacts.build_graph_listing parse_fks extracted) by done.
    unfold OrderSpec.graph_entry. rewrite Hfile.
    assert (contains "CREATE TABLE" (file_text table (first :: rest)) = true) as ->;
      [|eauto].
    apply contains_spec in Hc as (a & b & ->). apply contains_spec.
    unfold file_text. destruct rest as [|r rest'].
    + exists (header table +:+ a), b.
      change (join blank_line [a +:+ "CREATE TABLE" +:+ b])
        with (a +:+ "CREATE TABLE" +:+ b).
      by rewrite !app_assoc_s.
    + rewrite (join_cons blank_line _ (r :: rest')) by done.
      exists (header table +:+ a), (b +:+ blank_line +:+ join blank_line (r :: rest')).
      by rewrite !app_assoc_s.
Qed.

End extractor_extras.

Lemma header_hides_first_block_witness :
  List.filter Splitter.is_ddl
    (Splitter.split_statements
       (Extractor.file_text "roles" MoreExamples.roles_blocks)) = [] ∧
  (∀ st w,
     Splitter.process_table
       {["roles" := Extractor.file_text "roles" MoreExamples.roles_blocks]}
       "roles" st w = (Ok st, w)) ∧
  (contains "CREATE TABLE"
     "CREATE TABLE IF NOT EXISTS `roles` (`id` INT) ENGINE=InnoDB;" = true →
   ∀ parse_fks listing,
     listing ≡ₚ map_to_list
       ({["roles" := Extractor.file_text "roles" MoreExamples.roles_blocks]}
          : gmap string string) →
     "roles" ∈ dom (Resolver.build_graph parse_fks listing)).
Proof.
  apply (header_hides_first_block
           {["roles" := Extractor.file_text "roles" MoreExamples.roles_blocks]}
           "roles"
           "CREATE TABLE IF NOT EXISTS `roles` (`id` INT) ENGINE=InnoDB;"
           ["INSERT INTO `roles` VALUES (1);"]).
  - reflexivity.
  - exists "CREATE TABLE IF NOT EXISTS `roles` (`id` INT) ENGINE=InnoDB".
    split; [reflexivity|right; reflexivity].
  - repeat constructor.
    exists "INSERT INTO `roles` VALUES (1)".
    split; [reflexivity|right; reflexivity].
  - reflexivity.
Defined.
Section assign_extras.
Import Splitter.

(** X14 (one group per table).  No table name stands on two of the lists
    of [GROUPS]: a table that is on the list of a group is assigned this
    group by [assign_group], whichever list is looked at first. *)
Theorem assign_group_of_listed_table (group table : string) (pool : gset string) :
  (group, pool) ∈ GROUPS → table ∈ pool → assign_group table = group.
Proof.
  intros Hg Ht. unfold GROUPS in Hg.
  repeat (apply elem_of_cons in Hg as [[= -> ->]|Hg];
          [set_unfold in Ht; by repeat (destruct Ht as [->|Ht]; [by vm_compute|])|]).
  by apply elem_of_nil in Hg.
Qed.

End assign_extras.

Lemma assign_group_of_listed_table_witness :
  Splitter.assign_group "tasks" = "project".
Proof.
  apply (assign_group_of_listed_table "project" "tasks"
           (list_to_set
              ["projects"; "project_users"; "project_milestones"; "project_files";
               "project_client_call_notes"; "project_daily_status";
               "project_comments"; "tasks"; "task_comments"; "task_history"; "bugs";
               "bug_comments"; "attachments"; "timesheets"])).
  - unfold Splitter.GROUPS. apply elem_of_cons. right. apply elem_of_cons. by left.
  - by vm_compute.
Defined.
